(** * Jack Poker Manager: the round engine

    A shallow embedding of [services/pokerLogic.ts] (score formula, table
    draw, financial settlement) and of the [App] component: the session
    handlers (count adjustment, elimination ranking, rank override, round
    start), the roster and phase handlers, the saving of a round, the
    season ranking and the controls that reach them, with the properties of
    the engine stated and proved over it.

    Conventions.
    - A TypeScript [number] that holds a count or a rank is an integer, [Z];
      [number | null] is [option Z].
    - A TypeScript [number] that holds money or points is a member of a type
      [num] with the interface [Number]: the functions are written once and
      read under two interpretations, [float] (IEEE 754 binary64, what the
      program computes) and [Q] (exact rationals, what the formulas denote).
    - [Math.random] is an explicit list of draws handed to [shuffle].
    - The React state of [App] is the record [AppState], and [Season] with
      the pieces that outlive a round; a handler is a function from state
      to state.
    - The answer to [window.confirm] is a boolean argument of the handler
      that asks. *)

From Stdlib Require Import ZArith QArith Qround Qabs Lia Lqa.
From Stdlib Require Import PrimFloat SpecFloat FloatOps FloatAxioms.
From stdpp Require Import gmap strings list sorting pretty.

Local Open Scope Z_scope.

(** ** Numbers *)

Declare Scope num_scope.
Delimit Scope num_scope with num.

Class Number (num : Type) := {
  (** [lit m k] is the decimal literal [m / 10^k]: [lit 15 2] is [0.15]. *)
  lit : Z -> nat -> num;
  num_add : num -> num -> num;
  num_sub : num -> num -> num;
  num_mul : num -> num -> num;
  num_div : num -> num -> num;
  (** [a <= b] and [a === b] *)
  num_leb : num -> num -> bool;
  num_eqb : num -> num -> bool;
  (** [Math.round]: the nearest integer, a tie going towards [+∞]. *)
  Math_round : num -> num
}.

Infix "+" := num_add : num_scope.
Infix "-" := num_sub : num_scope.
Infix "*" := num_mul : num_scope.
Infix "/" := num_div : num_scope.

(** An integer as a number. *)
Definition of_int {num : Type} `{Number num} (z : Z) : num := lit z 0.

(** *** Exact rationals *)

Module Exact.

Definition lit (m : Z) (k : nat) : Q := Qmake m (Z.to_pos (10 ^ Z.of_nat k)).

Definition round (x : Q) : Q := inject_Z (Qfloor (x + (1 # 2))).

End Exact.

#[export] Instance Number_Q : Number Q := {|
  lit := Exact.lit;
  num_add := Qplus;
  num_sub := Qminus;
  num_mul := Qmult;
  num_div := Qdiv;
  num_leb := Qle_bool;
  num_eqb := Qeq_bool;
  Math_round := Exact.round
|}.

(** *** IEEE 754 binary64 *)

Module Binary64.

Local Open Scope float_scope.

(** An integer as a double; exact below [2^53], which covers every count
    and every literal of the program. *)
Fixpoint of_pos (p : positive) : float :=
  match p with
  | xH => 1
  | xO q => 2 * of_pos q
  | xI q => 2 * of_pos q + 1
  end.

Definition of_Z (z : Z) : float :=
  match z with
  | Z0 => 0
  | Zpos p => of_pos p
  | Zneg p => - of_pos p
  end.

(** Division is correctly rounded, so [m / 10^k] is the double nearest to
    the decimal literal. *)
Definition lit (m : Z) (k : nat) : float :=
  of_Z m / of_Z (10 ^ Z.of_nat k).

Definition two52 : float := 0x1p52.

(** [Math.floor]. A double of magnitude [2^52] or more is an integer
    already; below, adding and subtracting [2^52] rounds to an integer,
    which is then corrected downwards. *)
Definition floor (x : float) : float :=
  if abs x <? two52 then
    let r := if 0 <=? x then (x + two52) - two52 else (x - two52) + two52 in
    if x <? r then r - 1 else r
  else x.

(** [Math.round]: [x - floor x] is exact, and a fraction of one half or
    more goes up. Where JavaScript returns [-0] this returns [+0]; the two
    are [===] and no operation of the program tells them apart. *)
Definition round (x : float) : float :=
  let f := floor x in
  if 0.5 <=? x - f then f + 1 else f.

End Binary64.

#[export] Instance Number_float : Number float := {|
  lit := Binary64.lit;
  num_add := PrimFloat.add;
  num_sub := PrimFloat.sub;
  num_mul := PrimFloat.mul;
  num_div := PrimFloat.div;
  num_leb := PrimFloat.leb;
  num_eqb := PrimFloat.eqb;
  Math_round := Binary64.round
|}.

(** ** Data model ([types.ts]) *)

Record Player := {
  id : string;
  name : string;
  isDealer : bool
}.

Record PlayerSession := {
  playerId : string;
  buyIns : Z;
  rebuys : Z;
  addOns : Z;
  rank : option Z
}.

Record Table := {
  table_id : Z;
  table_players : list string
}.

Record FinancialConfig (num : Type) := {
  buyInCost : num;
  rebuyCost : num;
  addOnCost : num;
  bbqCost : num
}.
Arguments buyInCost {num} _.
Arguments rebuyCost {num} _.
Arguments addOnCost {num} _.
Arguments bbqCost {num} _.

Record Prizes (num : Type) := {
  first : num;
  second : num;
  third : num
}.
Arguments first {num} _.
Arguments second {num} _.
Arguments third {num} _.

Record PlayerBalance (num : Type) := {
  pb_playerId : string;
  totalPaid : num;
  prizeReceived : num;
  bbqShare : num;
  netBalance : num
}.
Arguments pb_playerId {num} _.
Arguments totalPaid {num} _.
Arguments prizeReceived {num} _.
Arguments bbqShare {num} _.
Arguments netBalance {num} _.

Record FinancialResult (num : Type) := {
  grossTotal : num;
  adminTax : num;
  mainEventPot : num;
  netPrizePool : num;
  prizes : Prizes num;
  roundingAdjustment : num;
  playerBalances : list (PlayerBalance num)
}.
Arguments grossTotal {num} _.
Arguments adminTax {num} _.
Arguments mainEventPot {num} _.
Arguments netPrizePool {num} _.
Arguments prizes {num} _.
Arguments roundingAdjustment {num} _.
Arguments playerBalances {num} _.

(** ** Score formula and settlement ([services/pokerLogic.ts]) *)

Section Logic.

Context {num : Type} `{Number num}.
Local Open Scope num_scope.

Definition calculatePoints (n p : num) : num :=
  if num_leb p (of_int 0) then of_int 0
  else (n + of_int 1) - p + (n / p).

Definition smartRound (val : num) : num :=
  Math_round (val / of_int 10) * of_int 10.

(** The body of [sessions.forEach] that accumulates the gross. *)
Definition addSession (config : FinancialConfig num)
    (grossTotal : num) (s : PlayerSession) : num :=
  let g1 := grossTotal + of_int (buyIns s) * buyInCost config in
  let g2 := g1 + of_int (rebuys s) * rebuyCost config in
  g2 + of_int (addOns s) * addOnCost config.

Definition calculateFinancials (sessions : list PlayerSession)
    (config : FinancialConfig num) : FinancialResult num :=
  let grossTotal := fold_left (addSession config) sessions (of_int 0) in
  let adminTax := grossTotal * lit 15 2 in
  let mainEventPot := grossTotal * lit 5 2 in
  let netPrizePool := grossTotal - adminTax - mainEventPot in
  let rawFirst := netPrizePool * lit 50 2 in
  let rawSecond := netPrizePool * lit 30 2 in
  let rawThird := netPrizePool * lit 20 2 in
  let finalPrizes := {| first := smartRound rawFirst;
                        second := smartRound rawSecond;
                        third := smartRound rawThird |} in
  let totalPaidOut := first finalPrizes + second finalPrizes + third finalPrizes in
  let roundingAdjustment := netPrizePool - totalPaidOut in
  let finalAdminTax := adminTax + roundingAdjustment in
  let activePlayerCount := Z.of_nat (length sessions) in
  let bbqPerPerson :=
    if (0 <? activePlayerCount)%Z
    then bbqCost config / of_int activePlayerCount
    else of_int 0 in
  let balance (s : PlayerSession) :=
    let totalCost := of_int (buyIns s) * buyInCost config
                     + of_int (rebuys s) * rebuyCost config
                     + of_int (addOns s) * addOnCost config in
    let prize0 := of_int 0 in
    let prize1 := if decide (rank s = Some 1%Z) then first finalPrizes else prize0 in
    let prize2 := if decide (rank s = Some 2%Z) then second finalPrizes else prize1 in
    let prize3 := if decide (rank s = Some 3%Z) then third finalPrizes else prize2 in
    {| pb_playerId := playerId s;
       totalPaid := totalCost;
       prizeReceived := prize3;
       bbqShare := bbqPerPerson;
       netBalance := prize3 - totalCost - bbqPerPerson |} in
  {| grossTotal := grossTotal;
     adminTax := finalAdminTax;
     mainEventPot := mainEventPot;
     netPrizePool := netPrizePool;
     prizes := finalPrizes;
     roundingAdjustment := roundingAdjustment;
     playerBalances := map balance sessions |}.

(** The reconciliation identity, as the program would test it:
    [adminTax + mainEventPot + (first + second + third) === grossTotal]. *)
Definition reconciles (r : FinancialResult num) : bool :=
  num_eqb (adminTax r + mainEventPot r
           + (first (prizes r) + second (prizes r) + third (prizes r)))
          (grossTotal r).

End Logic.

(** ** Table draw ([services/pokerLogic.ts]) *)

(** [[array[i], array[j]] = [array[j], array[i]]]: both reads come first,
    then [array[i]] and [array[j]] are written in that order. *)
Definition swap {T : Type} (i j : nat) (array : list T) : list T :=
  match array !! i, array !! j with
  | Some ai, Some aj => <[j := ai]> (<[i := aj]> array)
  | _, _ => array
  end.

(** The loop of [shuffle]. [Math.floor(Math.random() * currentIndex)] is an
    index below [currentIndex]: the next draw of [rnd], reduced modulo
    [currentIndex] (a source that has run dry draws [0]). *)
Fixpoint shuffle_loop {T : Type} (currentIndex : nat) (rnd : list nat)
    (array : list T) : list T :=
  match currentIndex with
  | O => array
  | S currentIndex' =>
      let randomIndex := (hd O rnd mod currentIndex)%nat in
      shuffle_loop currentIndex' (tl rnd) (swap currentIndex' randomIndex array)
  end.

Definition shuffle {T : Type} (rnd : list nat) (array : list T) : list T :=
  shuffle_loop (length array) rnd array.

(** [Array.prototype.sort] with a comparator [(a, b) => key a - key b]:
    ascending by key and stable, as ECMAScript requires. *)
Fixpoint sort_insert {T : Type} (key : T -> Z) (x : T) (l : list T) : list T :=
  match l with
  | [] => [x]
  | y :: l' => if key x <=? key y then x :: l else y :: sort_insert key x l'
  end.

Definition sort_by {T : Type} (key : T -> Z) (l : list T) : list T :=
  foldr (sort_insert key) [] l.

Definition table_size (t : Table) : Z := Z.of_nat (length (table_players t)).

(** [t.players.push(playerId)] *)
Definition push_player (playerId : string) (t : Table) : Table :=
  {| table_id := table_id t; table_players := table_players t ++ [playerId] |}.

(** [tables[tableIndex].players.push(dealer.id)] for the dealer at [index]. *)
Definition seatDealer (safeNumTables : Z) (tables : list Table)
    (entry : nat * Player) : list Table :=
  let tableIndex := Z.to_nat (Z.of_nat entry.1 mod safeNumTables) in
  alter (push_player (id entry.2)) tableIndex tables.

(** The body of [shuffledNonDealers.forEach]: sort the tables by size, in
    place, and push onto [tables[0]]. *)
Definition seatNonDealer (tables : list Table) (player : Player) : list Table :=
  match sort_by table_size tables with
  | t :: rest => push_player (id player) t :: rest
  | [] => []
  end.

Definition emptyTables (safeNumTables : Z) : list Table :=
  (fun i => {| table_id := Z.of_nat i + 1; table_players := [] |})
    <$> seq 0 (Z.to_nat safeNumTables).

(** The working array [tables] once the dealers are seated. *)
Definition dealersSeated (players : list Player) (numberOfTables : Z) : list Table :=
  let dealers := filter (fun p => isDealer p = true) players in
  let safeNumTables := Z.max 1 (Z.min 3 numberOfTables) in
  foldl (seatDealer safeNumTables) (emptyTables safeNumTables) (imap pair dealers).

Definition shuffledNonDealers (rnd : list nat) (players : list Player) : list Player :=
  shuffle rnd (filter (fun p => isDealer p = false) players).

(** [numberOfTables] is an integer: the interface offers 1, 2 and 3. *)
Definition drawTables (rnd : list nat) (players : list Player)
    (numberOfTables : Z) : list Table :=
  if decide (length players = O) then []
  else
    let tables := dealersSeated players numberOfTables in
    let tables := foldl seatNonDealer tables (shuffledNonDealers rnd players) in
    sort_by table_id tables.

(** The table that receives the next non-dealer: [tables[0]] after the sort. *)
Definition seatTarget (tables : list Table) : option Table :=
  head (sort_by table_size tables).

(** The working array as each non-dealer finds it, in seating order. *)
Fixpoint seatingStates (tables : list Table) (nonDealers : list Player)
    : list (list Table) :=
  match nonDealers with
  | [] => []
  | p :: rest => tables :: seatingStates (seatNonDealer tables p) rest
  end.

(** ** The round session ([App]) *)

Inductive GamePhase := REBUYS_OPEN | ADDONS_OPEN | FREEZEOUT.

Inductive Tab := SETUP | GAME | FINANCE | RANKING | SPECS.

Record AppState := {
  activeTab : Tab;
  players : list Player;
  checkedInIds : gset string;
  numTables : Z;
  gameSessions : list PlayerSession;
  tables : list Table;
  gamePhase : GamePhase
}.

(** [keyof PlayerSession] *)
Inductive SessionField := K_playerId | K_buyIns | K_rebuys | K_addOns | K_rank.

#[export] Instance SessionField_eq_dec : EqDecision SessionField.
Proof. solve_decision. Defined.

(** [s[field]] when [typeof s[field] === 'number'] *)
Definition numberField (field : SessionField) (s : PlayerSession) : option Z :=
  match field with
  | K_playerId => None
  | K_buyIns => Some (buyIns s)
  | K_rebuys => Some (rebuys s)
  | K_addOns => Some (addOns s)
  | K_rank => rank s
  end.

(** [{ ...s, [field]: newVal }] *)
Definition setField (field : SessionField) (newVal : Z) (s : PlayerSession)
    : PlayerSession :=
  match field with
  | K_playerId => s
  | K_buyIns => {| playerId := playerId s; buyIns := newVal; rebuys := rebuys s;
                   addOns := addOns s; rank := rank s |}
  | K_rebuys => {| playerId := playerId s; buyIns := buyIns s; rebuys := newVal;
                   addOns := addOns s; rank := rank s |}
  | K_addOns => {| playerId := playerId s; buyIns := buyIns s; rebuys := rebuys s;
                   addOns := newVal; rank := rank s |}
  | K_rank => {| playerId := playerId s; buyIns := buyIns s; rebuys := rebuys s;
                 addOns := addOns s; rank := Some newVal |}
  end.

(** [{ ...s, rank }] *)
Definition withRank (r : option Z) (s : PlayerSession) : PlayerSession :=
  {| playerId := playerId s; buyIns := buyIns s; rebuys := rebuys s;
     addOns := addOns s; rank := r |}.

(** The updater that [updateSession] hands to [setGameSessions]. *)
Definition updateSession (pid : string) (field : SessionField) (delta : Z)
    (prev : list PlayerSession) : list PlayerSession :=
  (fun s =>
     if decide (playerId s ≠ pid) then s
     else match numberField field s with
          | Some val =>
              let newVal := val + delta in
              let newVal :=
                if decide (field = K_addOns) then Z.max 0 (Z.min 1 newVal)
                else Z.max 0 newVal in
              setField field newVal s
          | None => s
          end) <$> prev.

(** The updater that [setRank] hands to [setGameSessions]. *)
Definition setRank (pid : string) (r : Z) (prev : list PlayerSession)
    : list PlayerSession :=
  (fun s =>
     if decide (playerId s = pid) then withRank (Some r) s
     else if decide (rank s = Some r) then withRank None s
     else s) <$> prev.

Definition setGameSessions (f : list PlayerSession -> list PlayerSession)
    (st : AppState) : AppState :=
  {| activeTab := activeTab st; players := players st;
     checkedInIds := checkedInIds st; numTables := numTables st;
     gameSessions := f (gameSessions st); tables := tables st;
     gamePhase := gamePhase st |}.

(** [while (assignedRanks.includes(nextRank) && nextRank > 0) nextRank--] *)
Fixpoint lowerRank (assignedRanks : list Z) (nextRank : nat) : nat :=
  match nextRank with
  | O => O
  | S nextRank' =>
      if decide (Z.of_nat nextRank ∈ assignedRanks)
      then lowerRank assignedRanks nextRank'
      else nextRank
  end.

Definition handleElimination (pid : string) (st : AppState) : AppState :=
  let activeCount := size (checkedInIds st) in
  let assignedRanks := omap rank (gameSessions st) in
  let nextRank := lowerRank assignedRanks activeCount in
  if decide (0 < nextRank)%nat
  then setGameSessions (setRank pid (Z.of_nat nextRank)) st
  else st.

Definition newSession (p : Player) : PlayerSession :=
  {| playerId := id p; buyIns := 1; rebuys := 0; addOns := 0; rank := None |}.

(** [players.filter(p => checkedInIds.has(p.id))] *)
Definition activePlayers (st : AppState) : list Player :=
  filter (fun p => id p ∈ checkedInIds st) (players st).

Definition startRound (rnd : list nat) (st : AppState) : AppState :=
  let activePlayers := activePlayers st in
  let drawnTables := drawTables rnd activePlayers (numTables st) in
  let sessions := newSession <$> activePlayers in
  {| activeTab := GAME; players := players st;
     checkedInIds := checkedInIds st; numTables := numTables st;
     gameSessions := sessions; tables := drawnTables;
     gamePhase := REBUYS_OPEN |}.

(** The button "Sortear e Iniciar": [disabled={checkedInIds.size < 2}]; a
    disabled button does not run its [onClick]. *)
Definition startDisabled (st : AppState) : bool :=
  bool_decide (size (checkedInIds st) < 2)%nat.

Definition clickStart (rnd : list nat) (st : AppState) : AppState :=
  if startDisabled st then st else startRound rnd st.

(** ** Inputs used in the examples *)

(** Two players who paid one buy-in of 16 each. *)
Definition config16 : FinancialConfig float :=
  {| buyInCost := 16; rebuyCost := 16; addOnCost := 16; bbqCost := 0 |}%float.

Definition twoSessions : list PlayerSession :=
  [ {| playerId := "1"; buyIns := 1; rebuys := 0; addOns := 0; rank := Some 1 |};
    {| playerId := "2"; buyIns := 1; rebuys := 0; addOns := 0; rank := Some 2 |} ].

(** The scenario of the specification: four players, costs 50/50/50 and a
    shared cost of 40. *)
Definition fourSessions : list PlayerSession :=
  [ {| playerId := "1"; buyIns := 1; rebuys := 0; addOns := 0; rank := Some 1 |};
    {| playerId := "2"; buyIns := 1; rebuys := 0; addOns := 0; rank := Some 2 |};
    {| playerId := "3"; buyIns := 1; rebuys := 0; addOns := 0; rank := Some 3 |};
    {| playerId := "4"; buyIns := 1; rebuys := 0; addOns := 0; rank := Some 4 |} ].

Definition config50 {num : Type} `{Number num} : FinancialConfig num :=
  {| buyInCost := of_int 50; rebuyCost := of_int 50; addOnCost := of_int 50;
     bbqCost := of_int 40 |}.

(** ** Predicates of the settlement *)

(** The data model's ranges for the counts of a session. *)
Definition countsOk (s : PlayerSession) : Prop :=
  0 <= buyIns s /\ 0 <= rebuys s /\ 0 <= addOns s.



(** The number that a double stands for: [(-1)^s * m * 2^e] for a finite
    double; 0 for the others, which are no amounts. *)
Definition exactValue (x : float) : Q :=
  match Prim2SF x with
  | S754_finite s m e =>
      let v := if 0 <=? e then inject_Z (Zpos m * 2 ^ e)
               else Zpos m # Z.to_pos (2 ^ (- e)) in
      if s then Qopp v else v
  | _ => 0%Q
  end.

(** The costs that a configuration of doubles stands for. *)
Definition exactConfig (config : FinancialConfig float) : FinancialConfig Q :=
  {| buyInCost := exactValue (buyInCost config);
     rebuyCost := exactValue (rebuyCost config);
     addOnCost := exactValue (addOnCost config);
     bbqCost := exactValue (bbqCost config) |}.


(** Five players at a buy-in of 10.90 and a rebuy of 1.00; the first of them
    took eight rebuys. *)
Definition config1090 : FinancialConfig float :=
  {| buyInCost := lit 1090 2; rebuyCost := lit 100 2; addOnCost := 0; bbqCost := 0 |}%float.

Definition fiveSessions : list PlayerSession :=
  [ {| playerId := "1"; buyIns := 1; rebuys := 8; addOns := 0; rank := None |};
    {| playerId := "2"; buyIns := 1; rebuys := 0; addOns := 0; rank := None |};
    {| playerId := "3"; buyIns := 1; rebuys := 0; addOns := 0; rank := None |};
    {| playerId := "4"; buyIns := 1; rebuys := 0; addOns := 0; rank := None |};
    {| playerId := "5"; buyIns := 1; rebuys := 0; addOns := 0; rank := None |} ].



(** ** Predicates and inputs of the round *)

Definition seats (tables : list Table) : list string :=
  mjoin (table_players <$> tables).

Definition balanced (tables : list Table) : Prop :=
  forall t1 t2, t1 ∈ tables -> t2 ∈ tables -> table_size t1 <= table_size t2 + 1.

(** The order that [sort_by key] establishes. *)
Definition key_le {T : Type} (key : T -> Z) (a b : T) : Prop := key a <= key b.

Definition guest (i : string) : Player := {| id := i; name := i; isDealer := false |}.

Definition fourPlayers : list Player := [guest "a"; guest "b"; guest "c"; guest "d"].

(** The working arrays that the non-dealers of a draw find. *)
Definition drawStates (rnd : list nat) (players : list Player)
    (numberOfTables : Z) : list (list Table) :=
  seatingStates (dealersSeated players numberOfTables)
                (shuffledNonDealers rnd players).

(** Each non-dealer goes to a table with the fewest players. *)
Definition seatsAtFewest (rnd : list nat) (players : list Player)
    (numberOfTables : Z) : Prop :=
  forall tbls t, tbls ∈ drawStates rnd players numberOfTables ->
    seatTarget tbls = Some t ->
    forall t', t' ∈ tbls -> table_size t <= table_size t'.

(** Among the tables with the fewest players, the one of lowest id is taken. *)
Definition tiesToLowestId (rnd : list nat) (players : list Player)
    (numberOfTables : Z) : Prop :=
  forall tbls t, tbls ∈ drawStates rnd players numberOfTables ->
    seatTarget tbls = Some t ->
    forall t', t' ∈ tbls -> table_size t' = table_size t ->
      table_id t <= table_id t'.

(** Each rank is held by at most one session of the list. *)
Definition ranksUnique (sessions : list PlayerSession) : Prop :=
  forall i j si sj v,
    sessions !! i = Some si -> sessions !! j = Some sj ->
    rank si = Some v -> rank sj = Some v -> i = j.

(** What [setRank] does to a session of another player. *)
Definition evict (r : Z) (s : PlayerSession) : PlayerSession :=
  if decide (rank s = Some r) then withRank None s else s.

Definition holder : list PlayerSession :=
  [ {| playerId := "1"; buyIns := 1; rebuys := 0; addOns := 0; rank := Some 1 |} ].

Definition oneCheckedIn : AppState :=
  {| activeTab := SETUP;
     players := [ {| id := "1"; name := "Ana"; isDealer := false |} ];
     checkedInIds := {[ "1" ]};
     numTables := 1;
     gameSessions := [];
     tables := [];
     gamePhase := REBUYS_OPEN |}.

(** The rank that the eliminations [order], counted down from [n], give to
    player [p]. *)
Fixpoint elimRank (order : list string) (n : Z) (p : string) : option Z :=
  match order with
  | [] => None
  | q :: rest => if decide (p = q) then Some n else elimRank rest (n - 1) p
  end.

(** [order.forEach(handleElimination)], one render between two calls. *)
Definition eliminateAll (order : list string) (st : AppState) : AppState :=
  foldl (fun st pid => handleElimination pid st) st order.

(** The sessions of a round of [N] players once the players of [order] are
    out, in that order. *)
Definition ranked (sessions0 : list PlayerSession) (N : nat)
    (order : list string) : list PlayerSession :=
  (fun s => withRank (elimRank order (Z.of_nat N) (playerId s)) s) <$> sessions0.

Definition threePlayers : AppState :=
  {| activeTab := SETUP;
     players := [ {| id := "1"; name := "Ana"; isDealer := false |};
                  {| id := "2"; name := "Bia"; isDealer := false |};
                  {| id := "3"; name := "Caio"; isDealer := false |} ];
     checkedInIds := {[ "1"; "2"; "3" ]};
     numTables := 1;
     gameSessions := [];
     tables := [];
     gamePhase := REBUYS_OPEN |}.

(** ** More of the table draw *)

(** [Math.max(1, Math.min(3, numberOfTables))] *)
Definition safeNumTables (numberOfTables : Z) : Z := Z.max 1 (Z.min 3 numberOfTables).

(** [players.filter(p => p.isDealer)] *)
Definition dealersOf (players : list Player) : list Player :=
  filter (fun p => isDealer p = true) players.

(** The dealers that the round robin sends to the table at [tableIndex]:
    those whose place in the listing is [tableIndex] modulo the number of
    tables, in listing order. *)
Definition dealersAt (safeNumTables : Z) (tableIndex : nat)
    (entries : list (nat * Player)) : list string :=
  (fun e => id e.2)
    <$> filter (fun e => Z.to_nat (Z.of_nat e.1 mod safeNumTables) = tableIndex) entries.

(** The sizes that a round robin leaves: the tables before index [r] are one
    ahead of the others. *)
Definition roundRobin (r : nat) (tables : list Table) : Prop :=
  exists c, forall j t, tables !! j = Some t ->
    table_size t = c + (if decide (j < r)%nat then 1 else 0).

(** Every table of [tables] is a table of [tables0] with players pushed
    behind those it had. *)
Definition extendsTables (tables0 tables : list Table) : Prop :=
  forall t, t ∈ tables ->
    exists t0, t0 ∈ tables0 /\ table_id t0 = table_id t
               /\ table_players t0 `prefix_of` table_players t.

Definition dealerRoster : list Player :=
  [ {| id := "1"; name := "Ana"; isDealer := false |};
    {| id := "2"; name := "Bia"; isDealer := true |};
    {| id := "3"; name := "Caio"; isDealer := false |};
    {| id := "4"; name := "Duda"; isDealer := true |};
    {| id := "5"; name := "Edu"; isDealer := true |} ].

(** ** Columns of the settlement *)

(** The sum of a column of the settlement. *)
Definition sumQ (l : list Q) : Q := foldr Qplus 0%Q l.

(** How many sessions hold rank [r]. *)
Definition holders (r : Z) (sessions : list PlayerSession) : Z :=
  Z.of_nat (length (filter (fun s => rank s = Some r) sessions)).

(** What one session paid in. *)
Definition sessionCost (config : FinancialConfig Q) (s : PlayerSession) : Q :=
  (inject_Z (buyIns s) * buyInCost config
   + inject_Z (rebuys s) * rebuyCost config
   + inject_Z (addOns s) * addOnCost config)%Q.

(** The prize that the chain of [if (s.rank === ...)] picks. *)
Definition prizeFor (pr : Prizes Q) (s : PlayerSession) : Q :=
  if decide (rank s = Some 3) then third pr
  else if decide (rank s = Some 2) then second pr
  else if decide (rank s = Some 1) then first pr
  else 0%Q.

(** Three players who paid one buy-in of 7 each. *)
Definition config7 : FinancialConfig Q :=
  {| buyInCost := 7; rebuyCost := 7; addOnCost := 7; bbqCost := 0 |}%Q.

Definition threeSessions : list PlayerSession :=
  [ {| playerId := "1"; buyIns := 1; rebuys := 0; addOns := 0; rank := None |};
    {| playerId := "2"; buyIns := 1; rebuys := 0; addOns := 0; rank := None |};
    {| playerId := "3"; buyIns := 1; rebuys := 0; addOns := 0; rank := None |} ].

(** ** More handlers of [App] *)

Definition setGamePhase (phase : GamePhase) (st : AppState) : AppState :=
  {| activeTab := activeTab st; players := players st;
     checkedInIds := checkedInIds st; numTables := numTables st;
     gameSessions := gameSessions st; tables := tables st;
     gamePhase := phase |}.

Definition advancePhase (st : AppState) : AppState :=
  match gamePhase st with
  | REBUYS_OPEN => setGamePhase ADDONS_OPEN st
  | ADDONS_OPEN => setGamePhase FREEZEOUT st
  | FREEZEOUT => st
  end.

(** The place of a phase in the round. *)
Definition phaseIndex (phase : GamePhase) : nat :=
  match phase with REBUYS_OPEN => 0 | ADDONS_OPEN => 1 | FREEZEOUT => 2 end.

(** The updater of [handleAddonAll]. *)
Definition addonAll (prev : list PlayerSession) : list PlayerSession :=
  (fun s =>
     if decide (rank s = None)
     then {| playerId := playerId s; buyIns := buyIns s; rebuys := rebuys s;
             addOns := 1; rank := rank s |}
     else s) <$> prev.

(** [confirmed] is the answer to [window.confirm]. *)
Definition handleAddonAll (confirmed : bool) (st : AppState) : AppState :=
  if confirmed then setGameSessions addonAll st else st.

Definition resetRound (confirmed : bool) (st : AppState) : AppState :=
  if confirmed
  then {| activeTab := SETUP; players := players st;
          checkedInIds := checkedInIds st; numTables := numTables st;
          gameSessions := []; tables := []; gamePhase := REBUYS_OPEN |}
  else st.

Definition handleCheckInToggle (pid : string) (st : AppState) : AppState :=
  let next := if decide (pid ∈ checkedInIds st)
              then checkedInIds st ∖ {[ pid ]}
              else checkedInIds st ∪ {[ pid ]} in
  {| activeTab := activeTab st; players := players st;
     checkedInIds := next; numTables := numTables st;
     gameSessions := gameSessions st; tables := tables st;
     gamePhase := gamePhase st |}.

Definition flipDealer (pid : string) (p : Player) : Player :=
  if decide (id p = pid)
  then {| id := id p; name := name p; isDealer := negb (isDealer p) |}
  else p.

Definition toggleDealer (pid : string) (st : AppState) : AppState :=
  {| activeTab := activeTab st; players := flipDealer pid <$> players st;
     checkedInIds := checkedInIds st; numTables := numTables st;
     gameSessions := gameSessions st; tables := tables st;
     gamePhase := gamePhase st |}.

(** The counts of a session. *)
Definition counts (s : PlayerSession) : Z * Z * Z := (buyIns s, rebuys s, addOns s).


(** A session as [startRound] opens it. *)
Definition freshSession (s : PlayerSession) : Prop :=
  buyIns s = 1 /\ rebuys s = 0 /\ addOns s = 0 /\ rank s = None.

(** ** The controls of the game tab *)

#[export] Instance Tab_eq_dec : EqDecision Tab.
Proof. solve_decision. Defined.

#[export] Instance GamePhase_eq_dec : EqDecision GamePhase.
Proof. solve_decision. Defined.

(** The buttons [[1, 2, 3].map(rank => ...)] of a row. *)
Inductive Podium := FirstPlace | SecondPlace | ThirdPlace.

Definition podiumRank (place : Podium) : Z :=
  match place with FirstPlace => 1 | SecondPlace => 2 | ThirdPlace => 3 end.

(** A click on a control of the game tab; [row] is the index of the session
    whose row holds the control. *)
Inductive GameClick :=
| RebuyMinus (row : nat)
| RebuyPlus (row : nat)
| AddOnToggle (row : nat)
| AddonAll (confirmed : bool)
| Advance
| RankButton (row : nat) (place : Podium)
| Eliminate (row : nat).

(** [!!session.rank] *)
Definition hasRank (s : PlayerSession) : bool :=
  match rank s with
  | Some r => negb (r =? 0)
  | None => false
  end.

(** What a click does: the control has to be rendered (the game tab is
    open, the row exists, the phase shows the control) and enabled. *)
Definition gameClick (st : AppState) (c : GameClick) : AppState :=
  if decide (activeTab st = GAME) then
    match c with
    | RebuyMinus row =>
        match gameSessions st !! row with
        | Some s => if decide (gamePhase st = REBUYS_OPEN)
                    then setGameSessions (updateSession (playerId s) K_rebuys (-1)) st
                    else st
        | None => st
        end
    | RebuyPlus row =>
        match gameSessions st !! row with
        | Some s => if decide (gamePhase st = REBUYS_OPEN)
                    then setGameSessions (updateSession (playerId s) K_rebuys 1) st
                    else st
        | None => st
        end
    | AddOnToggle row =>
        match gameSessions st !! row with
        | Some s => if decide (gamePhase st = ADDONS_OPEN)
                    then setGameSessions
                           (updateSession (playerId s) K_addOns
                              (if decide (addOns s = 1) then -1 else 1)) st
                    else st
        | None => st
        end
    | AddonAll confirmed =>
        if decide (gamePhase st = ADDONS_OPEN) then handleAddonAll confirmed st else st
    | Advance =>
        if decide (gamePhase st ≠ FREEZEOUT) then advancePhase st else st
    | RankButton row place =>
        match gameSessions st !! row with
        | Some s => setGameSessions (setRank (playerId s) (podiumRank place)) st
        | None => st
        end
    | Eliminate row =>
        match gameSessions st !! row with
        | Some s => if hasRank s then st else handleElimination (playerId s) st
        | None => st
        end
    end
  else st.

(** What the handlers keep true of the sessions of a round. *)
Definition sessionOk (s : PlayerSession) : Prop :=
  buyIns s = 1 /\ 0 <= rebuys s /\ (addOns s = 0 \/ addOns s = 1)
  /\ forall r, rank s = Some r -> 1 <= r.

Definition roundOk (ids : list string) (st : AppState) : Prop :=
  activeTab st = GAME
  /\ playerId <$> gameSessions st = ids
  /\ Forall sessionOk (gameSessions st)
  /\ ranksUnique (gameSessions st).

(** The totals of a settlement: all but the balances of the players. *)
Definition totals {num : Type} (r : FinancialResult num)
    : num * num * num * num * Prizes num * num :=
  (grossTotal r, adminTax r, mainEventPot r, netPrizePool r, prizes r,
   roundingAdjustment r).

(** ** The season: roster entry and round history ([App], [types.ts]) *)

Record PlayerResult (num : Type) := {
  result_playerId : string;
  points : num;
  result_netBalance : num;
  result_rank : option Z
}.
Arguments result_playerId {num} _.
Arguments points {num} _.
Arguments result_netBalance {num} _.
Arguments result_rank {num} _.

Record HistoricalRound (num : Type) := {
  round_id : Z;
  date : string;
  totalPot : num;
  playerResults : list (PlayerResult num)
}.
Arguments round_id {num} _.
Arguments date {num} _.
Arguments totalPot {num} _.
Arguments playerResults {num} _.

(** The state of [App] that [AppState] leaves out. *)
Record Season (num : Type) := {
  app : AppState;
  newPlayerName : string;
  roundDate : string;
  config : FinancialConfig num;
  roundHistory : list (HistoricalRound num)
}.
Arguments app {num} _.
Arguments newPlayerName {num} _.
Arguments roundDate {num} _.
Arguments config {num} _.
Arguments roundHistory {num} _.

Section SeasonHandlers.

Context {num : Type} `{Number num}.

(** [String.prototype.trim], which the model leaves to the platform. *)
Variable trim : string -> string.

Definition withApp (f : AppState -> AppState) (se : Season num) : Season num :=
  {| app := f (app se); newPlayerName := newPlayerName se;
     roundDate := roundDate se; config := config se;
     roundHistory := roundHistory se |}.

(** [setNewPlayerName(e.target.value)] *)
Definition typeName (value : string) (se : Season num) : Season num :=
  {| app := app se; newPlayerName := value; roundDate := roundDate se;
     config := config se; roundHistory := roundHistory se |}.

Definition handleAddPlayer (se : Season num) : Season num :=
  if decide (trim (newPlayerName se) = "") then se
  else
    let st := app se in
    let newId := pretty (length (players st) + 1)%nat in
    let newPlayer := {| id := newId; name := newPlayerName se; isDealer := false |} in
    {| app := {| activeTab := activeTab st;
                 players := players st ++ [newPlayer];
                 checkedInIds := checkedInIds st ∪ {[ newId ]};
                 numTables := numTables st;
                 gameSessions := gameSessions st;
                 tables := tables st;
                 gamePhase := gamePhase st |};
       newPlayerName := "";
       roundDate := roundDate se;
       config := config se;
       roundHistory := roundHistory se |}.

(** A click on the roster panel of the setup tab; [row] is the index of the
    player whose card holds the control. *)
Inductive RosterClick :=
| TypeName (value : string)
| AddPlayer
| ToggleCheckIn (row : nat)
| ToggleDealer (row : nat).

Definition rosterClick (se : Season num) (c : RosterClick) : Season num :=
  if decide (activeTab (app se) = SETUP) then
    match c with
    | TypeName value => typeName value se
    | AddPlayer => handleAddPlayer se
    | ToggleCheckIn row =>
        match players (app se) !! row with
        | Some p => withApp (handleCheckInToggle (id p)) se
        | None => se
        end
    | ToggleDealer row =>
        match players (app se) !! row with
        | Some p => withApp (toggleDealer (id p)) se
        | None => se
        end
    end
  else se.

(** [session.rank ? calculatePoints(activePlayerCount, session.rank) : 0] *)
Definition pointsOf (activePlayerCount : nat) (session : PlayerSession) : num :=
  match rank session with
  | Some r => if decide (r = 0) then of_int 0
              else calculatePoints (of_int (Z.of_nat activePlayerCount)) (of_int r)
  | None => of_int 0
  end.

Definition resultOf (activePlayerCount : nat) (financials : FinancialResult num)
    (session : PlayerSession) : PlayerResult num :=
  let balance := find (fun b => bool_decide (pb_playerId b = playerId session))
                      (playerBalances financials) in
  {| result_playerId := playerId session;
     points := pointsOf activePlayerCount session;
     result_netBalance := match balance with
                          | Some b => netBalance b
                          | None => of_int 0
                          end;
     result_rank := rank session |}.

(** [confirmed] is the answer to [window.confirm]. *)
Definition saveAndFinishRound (confirmed : bool) (se : Season num) : Season num :=
  if confirmed then
    let st := app se in
    let activePlayerCount := size (checkedInIds st) in
    let financials := calculateFinancials (gameSessions st) (config se) in
    let historyEntry :=
      {| round_id := Z.of_nat (length (roundHistory se)) + 1;
         date := roundDate se;
         totalPot := grossTotal financials;
         playerResults := resultOf activePlayerCount financials <$> gameSessions st |} in
    {| app := {| activeTab := RANKING; players := players st;
                 checkedInIds := checkedInIds st; numTables := numTables st;
                 gameSessions := []; tables := []; gamePhase := REBUYS_OPEN |};
       newPlayerName := newPlayerName se;
       roundDate := roundDate se;
       config := config se;
       roundHistory := roundHistory se ++ [historyEntry] |}
  else se.

End SeasonHandlers.

(** The state in which [App] starts: nothing registered, nothing played. *)
Definition initialSeason {num : Type} `{Number num} (today : string) : Season num :=
  {| app := {| activeTab := SETUP; players := []; checkedInIds := ∅;
               numTables := 1; gameSessions := []; tables := [];
               gamePhase := REBUYS_OPEN |};
     newPlayerName := "";
     roundDate := today;
     config := {| buyInCost := of_int 50; rebuyCost := of_int 50;
                  addOnCost := of_int 50; bbqCost := of_int 300 |};
     roundHistory := [] |}.

(** The ids of a roster that [handleAddPlayer] built: "1", "2", ... *)
Definition rosterIds (n : nat) : list string := (fun i : nat => pretty (S i)) <$> seq 0 n.

Definition rosterOk (st : AppState) : Prop :=
  id <$> players st = rosterIds (length (players st))
  /\ forall x, x ∈ checkedInIds st -> x ∈ id <$> players st.

(** ** The interface of [App] as a whole *)

Inductive ConfigField := K_buyInCost | K_rebuyCost | K_addOnCost | K_bbqCost.

(** [{...config, [field]: v}] *)
Definition setConfigField {num : Type} (field : ConfigField) (v : num)
    (config : FinancialConfig num) : FinancialConfig num :=
  match field with
  | K_buyInCost => {| buyInCost := v; rebuyCost := rebuyCost config;
                      addOnCost := addOnCost config; bbqCost := bbqCost config |}
  | K_rebuyCost => {| buyInCost := buyInCost config; rebuyCost := v;
                      addOnCost := addOnCost config; bbqCost := bbqCost config |}
  | K_addOnCost => {| buyInCost := buyInCost config; rebuyCost := rebuyCost config;
                      addOnCost := v; bbqCost := bbqCost config |}
  | K_bbqCost => {| buyInCost := buyInCost config; rebuyCost := rebuyCost config;
                    addOnCost := addOnCost config; bbqCost := v |}
  end.

(** The buttons of [[1, 2, 3].map(n => ... setNumTables(n))]. *)
Inductive TableCount := OneTable | TwoTables | ThreeTables.

Definition tableCount (n : TableCount) : Z :=
  match n with OneTable => 1 | TwoTables => 2 | ThreeTables => 3 end.

Definition setNumTables (n : Z) (st : AppState) : AppState :=
  {| activeTab := activeTab st; players := players st;
     checkedInIds := checkedInIds st; numTables := n;
     gameSessions := gameSessions st; tables := tables st;
     gamePhase := gamePhase st |}.

Definition setActiveTab (tab : Tab) (st : AppState) : AppState :=
  {| activeTab := tab; players := players st;
     checkedInIds := checkedInIds st; numTables := numTables st;
     gameSessions := gameSessions st; tables := tables st;
     gamePhase := gamePhase st |}.

(** The [disabled] attribute of the navigation buttons. *)
Definition navDisabled (st : AppState) (tab : Tab) : bool :=
  match tab with
  | SETUP => bool_decide (gamePhase st <> REBUYS_OPEN)
             && bool_decide (activeTab st <> SETUP)
             && bool_decide (0 < length (gameSessions st))%nat
  | GAME | FINANCE => bool_decide (length (gameSessions st) = 0%nat)
  | RANKING | SPECS => false
  end.

Section Interface.

Context {num : Type} `{Number num}.
Variable trim : string -> string.

Definition setRoundDate (value : string) (se : Season num) : Season num :=
  {| app := app se; newPlayerName := newPlayerName se; roundDate := value;
     config := config se; roundHistory := roundHistory se |}.

Definition setConfig (f : FinancialConfig num -> FinancialConfig num)
    (se : Season num) : Season num :=
  {| app := app se; newPlayerName := newPlayerName se; roundDate := roundDate se;
     config := f (config se); roundHistory := roundHistory se |}.

(** What the user can do. A control acts when the tab that holds it is the
    active one, when it is rendered and when it is not [disabled]. The
    settings panel and the start button are dimmed by a style class while a
    round is on ([opacity-50 pointer-events-none]); that is no guard of the
    handlers, and the clicks are let through here. *)
Inductive Click :=
| Nav (tab : Tab)
| OnRoster (c : RosterClick)
| SetRoundDate (value : string)
| SetNumTables (n : TableCount)
| SetConfig (field : ConfigField) (v : num)
| Start (rnd : list nat)
| Reset (confirmed : bool)
| InGame (c : GameClick)
| Save (confirmed : bool).

Definition click (se : Season num) (c : Click) : Season num :=
  let st := app se in
  match c with
  | Nav tab => if navDisabled st tab then se else withApp (setActiveTab tab) se
  | OnRoster c => rosterClick trim se c
  | SetRoundDate value =>
      if decide (activeTab st = SETUP) then setRoundDate value se else se
  | SetNumTables n =>
      if decide (activeTab st = SETUP)
      then withApp (setNumTables (tableCount n)) se else se
  | SetConfig field v =>
      if decide (activeTab st = SETUP)
      then setConfig (setConfigField field v) se else se
  | Start rnd =>
      if decide (activeTab st = SETUP) then withApp (clickStart rnd) se else se
  | Reset confirmed =>
      if decide (activeTab st = SETUP)
      then if decide (0 < length (gameSessions st))%nat
           then withApp (resetRound confirmed) se else se
      else se
  | InGame c => withApp (fun st => gameClick st c) se
  | Save confirmed =>
      if decide (activeTab st = FINANCE) then saveAndFinishRound confirmed se else se
  end.

(** What holds of every state the interface reaches. *)
Definition seasonOk (se : Season num) : Prop :=
  let st := app se in
  rosterOk st
  /\ NoDup (playerId <$> gameSessions st)
  /\ (forall x, x ∈ playerId <$> gameSessions st -> x ∈ id <$> players st)
  /\ Forall sessionOk (gameSessions st)
  /\ ranksUnique (gameSessions st)
  /\ seats (tables st) ≡ₚ playerId <$> gameSessions st
  /\ balanced (tables st)
  /\ 1 <= numTables st <= 3
  /\ (activeTab st = GAME \/ activeTab st = FINANCE -> gameSessions st <> [])
  /\ round_id <$> roundHistory se
     = (fun i : nat => Z.of_nat i + 1) <$> seq 0 (length (roundHistory se))
  /\ Forall (fun round =>
               Forall (fun res => result_playerId res ∈ id <$> players st)
                      (playerResults round))
       (roundHistory se).

End Interface.

(** ** The season ranking ([seasonStats] of [App]) *)

Record Stat (num : Type) := {
  stat_name : string;
  stat_points : num;
  rounds : Z;
  wins : Z;
  stat_netBalance : num
}.
Arguments stat_name {num} _.
Arguments stat_points {num} _.
Arguments rounds {num} _.
Arguments wins {num} _.
Arguments stat_netBalance {num} _.

(** The object [stats] is the list of its own properties, in the order of
    their creation; a key occurs once. These are what [Object.values]
    returns and what the loop over the results updates. The prototype of
    [stats] is not part of the model; ["__proto__"] is the one key by which
    an assignment reaches it. *)

(** [stats[key]], when [key] is an own property. *)
Definition getProperty {num : Type} (key : string) (stats : list (string * Stat num))
    : option (Stat num) :=
  snd <$> find (fun e => bool_decide (e.1 = key)) stats.

(** [stats[key] = value]: an own property keeps its place, a new one goes
    last. The key ["__proto__"] is the accessor of [Object.prototype]: the
    assignment runs its setter, which replaces the prototype of [stats] and
    creates no own property. *)
Definition setProperty {num : Type} (key : string) (value : Stat num)
    (stats : list (string * Stat num)) : list (string * Stat num) :=
  if decide (key = "__proto__") then stats
  else
    match getProperty key stats with
    | Some _ => (fun e => if decide (e.1 = key) then (e.1, value) else e) <$> stats
    | None => stats ++ [(key, value)]
    end.

Definition digit (c : Ascii.ascii) : option N :=
  let n := Ascii.N_of_ascii c in
  if ((48 <=? n) && (n <=? 57))%N then Some (n - 48)%N else None.

Fixpoint digits (s : string) (acc : N) : option N :=
  match s with
  | EmptyString => Some acc
  | String c s' => match digit c with
                   | Some d => digits s' (10 * acc + d)%N
                   | None => None
                   end
  end.

(** An array index: the canonical numeral of an integer below [2^32 - 1]. *)
Definition arrayIndex (key : string) : option N :=
  match key with
  | EmptyString => None
  | String c rest =>
      if bool_decide (digit c = Some 0%N) && negb (bool_decide (rest = EmptyString)) then None
      else match digits key 0 with
           | Some n => if (n <? 4294967295)%N then Some n else None
           | None => None
           end
  end.

Definition isArrayIndex (key : string) : bool :=
  match arrayIndex key with Some _ => true | None => false end.

Definition indexOf (key : string) : Z :=
  match arrayIndex key with Some n => Z.of_N n | None => 0 end.

(** [Object.values]: the values of the array indices in ascending order,
    then those of the other keys in the order of their creation. *)
Definition Object_values {num : Type} (stats : list (string * Stat num)) : list (Stat num) :=
  snd <$> (sort_by (fun e => indexOf e.1) (filter (fun e => isArrayIndex e.1 = true) stats)
           ++ filter (fun e => isArrayIndex e.1 <> true) stats).

Section SeasonStats.

Context {num : Type} `{Number num}.

Local Open Scope num_scope.

(** [0 < v]: what [Array.prototype.sort] asks of [compareFn(a, b)] before it
    puts [b] first. *)
Definition positive (v : num) : bool := num_leb (of_int 0) v && negb (num_eqb (of_int 0) v).

Fixpoint sortInsert {T : Type} (compareFn : T -> T -> num) (x : T) (l : list T) : list T :=
  match l with
  | [] => [x]
  | y :: l' => if positive (compareFn x y) then y :: sortInsert compareFn x l' else x :: l
  end.

(** [Array.prototype.sort(compareFn)], which is stable. *)
Definition sortWith {T : Type} (compareFn : T -> T -> num) (l : list T) : list T :=
  foldr (sortInsert compareFn) [] l.

Definition emptyStat (p : Player) : Stat num :=
  {| stat_name := name p; stat_points := of_int 0; rounds := 0; wins := 0;
     stat_netBalance := of_int 0 |}.

(** The four updates of one result. *)
Definition addResult (res : PlayerResult num) (stat : Stat num) : Stat num :=
  {| stat_name := stat_name stat;
     stat_points := stat_points stat + points res;
     rounds := (rounds stat + 1)%Z;
     wins := if decide (result_rank res = Some 1%Z) then (wins stat + 1)%Z else wins stat;
     stat_netBalance := stat_netBalance stat + result_netBalance res |}.

(** The body of the loop over the results. The lines of the ranking are
    the own properties of [stats]: a result whose id is none of their keys
    updates none of them. *)
Definition recordResult (stats : list (string * Stat num)) (res : PlayerResult num)
    : list (string * Stat num) :=
  match getProperty (result_playerId res) stats with
  | None => stats
  | Some _ =>
      (fun e => if decide (e.1 = result_playerId res) then (e.1, addResult res e.2) else e)
        <$> stats
  end.

Definition seasonStats (players : list Player) (roundHistory : list (HistoricalRound num))
    : list (Stat num) :=
  let stats0 := foldl (fun stats p => setProperty (id p) (emptyStat p) stats) [] players in
  let stats := foldl (fun stats round => foldl recordResult stats (playerResults round))
                     stats0 roundHistory in
  sortWith (fun a b => stat_points b - stat_points a) (Object_values stats).



End SeasonStats.

(** ** Inputs of the later examples *)

Definition protoRoster : list Player :=
  [ {| id := "1"; name := "Ana"; isDealer := false |};
    {| id := "__proto__"; name := "Bia"; isDealer := false |};
    {| id := "2"; name := "Caio"; isDealer := false |} ].

(** A round of three players in which the cashier is closed. *)
Definition frozenRound : AppState := setGamePhase FREEZEOUT (startRound [] threePlayers).

(** The scenario of the specification, about to be saved. *)
Definition finishedRound : Season Q :=
  {| app := {| activeTab := FINANCE;
               players := [ {| id := "1"; name := "Ana"; isDealer := false |};
                            {| id := "2"; name := "Bia"; isDealer := false |};
                            {| id := "3"; name := "Caio"; isDealer := false |};
                            {| id := "4"; name := "Duda"; isDealer := false |} ];
               checkedInIds := {[ "1"; "2"; "3"; "4" ]};
               numTables := 1;
               gameSessions := fourSessions;
               tables := [ {| table_id := 1; table_players := ["1"; "2"; "3"; "4"] |} ];
               gamePhase := FREEZEOUT |};
     newPlayerName := "";
     roundDate := "2024-01-01";
     config := config50;
     roundHistory := [] |}.

(** * Settlement *)

Section ExactSettlement.

Local Open Scope Q_scope.


Lemma round_floor (x : Q) :
  inject_Z (Qfloor (x + (1 # 2))) <= x + (1 # 2) < inject_Z (Qfloor (x + (1 # 2))) + 1.
Proof.
  split; [apply Qfloor_le |].
  pose proof (Qlt_floor (x + (1 # 2))) as Hlt.
  rewrite inject_Z_plus in Hlt. exact Hlt.
Qed.

Lemma smartRound_Q (v : Q) :
  smartRound v = inject_Z (Qfloor (v / 10 + (1 # 2))) * 10.
Proof. reflexivity. Qed.

Lemma smartRound_bounds (v : Q) :
  smartRound v - 5 <= v < smartRound v + 5.
Proof.
  rewrite smartRound_Q.
  pose proof (round_floor (v / 10)) as [Hlo Hhi].
  set (z := inject_Z (Qfloor (v / 10 + (1 # 2)))) in *.
  assert (Hv : v == (v / 10) * 10) by field.
  set (w := v / 10) in *.
  split; lra.
Qed.





End ExactSettlement.

(** The scenario of the specification, as the program computes it: a gross
    of 200, an admin tax of 30, a main-event pot of 10, prizes of 80, 50 and
    30 with nothing left to adjust, a balance of 20 for the winner, and
    totals that reconcile. *)
Example scenario_binary64 :
  let r := calculateFinancials fourSessions (config50 (num := float)) in
  (grossTotal r, adminTax r, mainEventPot r, netPrizePool r)
  = (200, 30, 10, 160)%float
  /\ prizes r = {| first := 80; second := 50; third := 30 |}%float
  /\ roundingAdjustment r = 0%float
  /\ netBalance <$> head (playerBalances r) = Some 20%float
  /\ reconciles r = true.
Proof. repeat split; reflexivity. Qed.

(** [Math.round] sends a tie towards [+∞] whatever the sign: on doubles as
    on exact numbers a raw value of 125 becomes 130, and one of -125 would
    become -120. *)
Example smartRound_ties :
  smartRound (num := float) 125%float = 130%float
  /\ smartRound (num := float) (-125)%float = (-120)%float
  /\ (smartRound (num := Q) (-125) == -120)%Q.
Proof. split; [reflexivity | split; [reflexivity | by vm_compute]]. Qed.

(** C1, as stated, fails on the program. Two players pay one buy-in of 16
    each. In binary64 the gross is 32, [32 * 0.15] is 4.8 and [32 * 0.05] is
    1.6; the net pool [32 - 4.8 - 1.6] comes out as 25.599999999999998; the
    three prizes are 10, 10 and 10; the rounding adjustment is
    -4.400000000000002 and the admin tax that is returned
    0.3999999999999977. Adding up,
    [adminTax + mainEventPot + (first + second + third)] is
    31.999999999999996, which [===] tells apart from 32. *)
Lemma reconciliation_fails_in_binary64 :
  ~ (forall (sessions : list PlayerSession) (config : FinancialConfig float),
       reconciles (calculateFinancials sessions config) = true).
Proof.
  intros Hall. specialize (Hall twoSessions config16).
  vm_compute in Hall. discriminate Hall.
Qed.

(** C1, amended: read over exact numbers, the settlement of every list of
    sessions under every cost configuration satisfies
    [adminTax + mainEventPot + (first + second + third) == grossTotal]; the
    rounding adjustment that the admin tax absorbs is what makes it so. On
    binary64 the identity is subject to rounding: it holds for the scenario
    of the specification ([scenario_binary64]) and fails for two buy-ins of
    16. *)
Theorem reconciliation_exact (sessions : list PlayerSession)
    (config : FinancialConfig Q) :
  reconciles (calculateFinancials sessions config) = true.
Proof.
  unfold reconciles, calculateFinancials. cbn -[fold_left smartRound].
  apply Qeq_bool_iff.
  generalize (fold_left (addSession config) sessions (of_int 0)); intros g.
  ring.
Qed.

(** The run of the program on five players at a buy-in of 10.90 and a rebuy
    of 1.00 with eight rebuys: the gross comes out as 62.499999999999993
    and the net pool as 49.999999999999993, so that the prizes are 20, 10
    and 10. The amounts stand for a pool of 50 and shares of 25, 15 and 10,
    which round to 30, 20 and 10, and these are the prizes over exact
    numbers, whether the buy-in is read as the double or as 109/10. *)
Example rebuy_scenario_binary64 :
  let r := calculateFinancials fiveSessions config1090 in
  let e := calculateFinancials fiveSessions (exactConfig config1090) in
  (grossTotal r, netPrizePool r) = (0x1.f3fffffffffffp+5, 0x1.8ffffffffffffp+5)%float
  /\ prizes r = {| first := 20; second := 10; third := 10 |}%float
  /\ (first (prizes e) == 30 /\ second (prizes e) == 20 /\ third (prizes e) == 10)%Q
  /\ prizes (calculateFinancials fiveSessions
               {| buyInCost := 109 # 10; rebuyCost := 1; addOnCost := 0; bbqCost := 0 |}%Q)
     = {| first := 30; second := 20; third := 10 |}%Q.
Proof. repeat split; by vm_compute. Qed.




(** A double that is at least [1] is not at most [0]; a NaN is neither. *)
Lemma leb_one_not_leb_zero (p : float) :
  (1 <=? p)%float = true -> (p <=? 0)%float = false.
Proof.
  rewrite !leb_spec.
  change (Prim2SF 1) with (S754_finite false 4503599627370496 (-52)).
  change (Prim2SF 0) with (S754_zero false).
  destruct (Prim2SF p) as [s | s | | s m e]; try destruct s; cbn; congruence.
Qed.

Lemma calculatePoints_float (n p : float) :
  calculatePoints n p
  = (if p <=? 0 then 0 else (n + 1) - p + n / p)%float.
Proof. reflexivity. Qed.

(** C3: [calculatePoints n p] is [(n + 1) - p + n / p], the division not
    truncating, when [p >= 1], and [0] when [p <= 0]; this holds of the
    program's doubles and of exact numbers alike. [calculatePoints 25 1] is
    50; [calculatePoints 25 3] is [25 + 1 - 3 + 25 / 3], which is 94/3
    exactly and the double 31.333333333333336 in binary64. *)
Theorem calculatePoints_formula :
  (forall n p : float, (1 <=? p)%float = true ->
     calculatePoints n p = ((n + 1) - p + n / p)%float)
  /\ (forall n p : float, (p <=? 0)%float = true -> calculatePoints n p = 0%float)
  /\ calculatePoints 25%float 1%float = 50%float
  /\ calculatePoints 25%float 3%float = ((25 + 1) - 3 + 25 / 3)%float
  /\ calculatePoints 25%float 3%float = 0x1.f555555555556p+4%float
  /\ (forall n p : Q, (1 <= p)%Q ->
        (calculatePoints n p == (n + 1) - p + n / p)%Q)
  /\ (forall n p : Q, (p <= 0)%Q -> (calculatePoints n p == 0)%Q)
  /\ (calculatePoints (num := Q) 25 1 == 50)%Q
  /\ (calculatePoints (num := Q) 25 3 == 94 # 3)%Q.
Proof.
  repeat apply conj.
  - intros n p Hp. rewrite calculatePoints_float.
    by rewrite (leb_one_not_leb_zero p Hp).
  - intros n p Hp. rewrite calculatePoints_float. by rewrite Hp.
  - reflexivity.
  - reflexivity.
  - reflexivity.
  - intros n p Hp. unfold calculatePoints. cbn.
    destruct (Qle_bool p (Exact.lit 0 0)) eqn:Hle.
    + apply Qle_bool_iff in Hle. change (Exact.lit 0 0) with 0%Q in Hle. lra.
    + change (Exact.lit 1 0) with 1%Q. reflexivity.
  - intros n p Hp. unfold calculatePoints. cbn.
    destruct (Qle_bool p (Exact.lit 0 0)) eqn:Hle; [reflexivity |].
    assert (Qle_bool p 0 = true) as Ht by (by apply Qle_bool_iff).
    change (Exact.lit 0 0) with 0%Q in Hle. congruence.
  - by vm_compute.
  - by vm_compute.
Qed.

Lemma calculatePoints_formula_witness :
  (1 <=? 3)%float = true
  /\ calculatePoints 25%float 3%float = ((25 + 1) - 3 + 25 / 3)%float
  /\ (1 <= 3)%Q
  /\ (calculatePoints (num := Q) 25 3 == (25 + 1) - 3 + 25 / 3)%Q.
Proof.
  assert (Hf : (1 <=? 3)%float = true) by reflexivity.
  assert (Hq : (1 <= 3)%Q) by (vm_compute; discriminate).
  split; [exact Hf |].
  split; [exact (proj1 calculatePoints_formula 25%float 3%float Hf) |].
  split; [exact Hq |].
  exact (proj1 (proj2 (proj2 (proj2 (proj2 (proj2 calculatePoints_formula)))))
           25%Q 3%Q Hq).
Defined.

(** * Table draw *)

Section Sorting.

Context {T : Type} (key : T -> Z).

Lemma sort_insert_perm (x : T) (l : list T) : sort_insert key x l ≡ₚ x :: l.
Proof.
  induction l as [| y l IH]; [done |].
  cbn. destruct (key x <=? key y); [done |].
  rewrite IH. apply Permutation_swap.
Qed.

Lemma sort_by_perm (l : list T) : sort_by key l ≡ₚ l.
Proof.
  induction l as [| x l IH]; [done |].
  cbn. rewrite sort_insert_perm. by rewrite IH.
Qed.

Lemma sort_by_length (l : list T) : length (sort_by key l) = length l.
Proof. by rewrite sort_by_perm. Qed.

Lemma sort_insert_sorted (x : T) (l : list T) :
  StronglySorted (key_le key) l -> StronglySorted (key_le key) (sort_insert key x l).
Proof.
  induction 1 as [| y l Hl IH Hy]; cbn.
  - repeat constructor.
  - destruct (Z.leb_spec (key x) (key y)) as [Hxy | Hxy].
    + constructor; [by constructor |].
      constructor; [done |].
      eapply Forall_impl; [exact Hy |]. unfold key_le. intros; lia.
    + constructor; [done |].
      rewrite sort_insert_perm. constructor; [unfold key_le; lia | done].
Qed.

Lemma sort_by_sorted (l : list T) : StronglySorted (key_le key) (sort_by key l).
Proof.
  induction l as [| x l IH]; cbn; [constructor | by apply sort_insert_sorted].
Qed.

(** After the sort, index [0] holds an element of least key. *)
Lemma sort_by_head_least (l : list T) (t : T) :
  head (sort_by key l) = Some t ->
  t ∈ l /\ forall t', t' ∈ l -> key t <= key t'.
Proof.
  intros Hhd. pose proof (sort_by_sorted l) as Hs. pose proof (sort_by_perm l) as Hp.
  destruct (sort_by key l) as [| t0 rest]; simplify_eq/=.
  split; [rewrite <- Hp; by left |].
  intros t'. rewrite <- Hp. intros [-> | Hin]%elem_of_cons; [lia |].
  apply StronglySorted_inv in Hs as [_ Hall].
  rewrite Forall_forall in Hall. by apply Hall.
Qed.

(** The sort is stable: index [0] holds the first element of least key. *)
Lemma sort_by_head_first (l : list T) (t : T) :
  head (sort_by key l) = Some t ->
  exists i, l !! i = Some t
            /\ forall j t', l !! j = Some t' -> (j < i)%nat -> key t < key t'.
Proof.
  revert t. induction l as [| x l IH]; intros t; [done |].
  change (sort_by key (x :: l)) with (sort_insert key x (sort_by key l)).
  destruct (sort_by key l) as [| y rest] eqn:Hsort; cbn.
  - intros [= ->]. exists O. split; [done | intros; lia].
  - destruct (Z.leb_spec (key x) (key y)) as [Hxy | Hxy]; cbn; intros [= ->].
    + exists O. split; [done | intros; lia].
    + destruct (IH t eq_refl) as (i & Hi & Hbefore).
      exists (S i). split; [done |].
      intros [| j] t' Hj Hlt; simplify_eq/=; [lia |].
      apply (Hbefore j); [done | lia].
Qed.

End Sorting.

Section Shuffle.

Context {T : Type}.

Lemma swap_perm (i j : nat) (array : list T) : swap i j array ≡ₚ array.
Proof.
  unfold swap.
  destruct (array !! i) as [ai |] eqn:Hi; [| done].
  destruct (array !! j) as [aj |] eqn:Hj; [| done].
  by apply Permutation_insert_swap.
Qed.

Lemma shuffle_loop_perm (currentIndex : nat) (rnd : list nat) (array : list T) :
  shuffle_loop currentIndex rnd array ≡ₚ array.
Proof.
  revert rnd array.
  induction currentIndex as [| c IH]; intros rnd array; [done |].
  cbn [shuffle_loop]. rewrite IH. apply swap_perm.
Qed.

Lemma shuffle_perm (rnd : list nat) (array : list T) : shuffle rnd array ≡ₚ array.
Proof. apply shuffle_loop_perm. Qed.

End Shuffle.

Lemma seats_perm (tables1 tables2 : list Table) :
  tables1 ≡ₚ tables2 -> seats tables1 ≡ₚ seats tables2.
Proof. intros Hp. unfold seats. by rewrite Hp. Qed.

Lemma seats_cons (t : Table) (tables : list Table) :
  seats (t :: tables) = table_players t ++ seats tables.
Proof. reflexivity. Qed.

Lemma seats_alter_push (x : string) (i : nat) (tables : list Table) :
  (i < length tables)%nat ->
  seats (alter (push_player x) i tables) ≡ₚ x :: seats tables.
Proof.
  revert i. induction tables as [| t tables IH]; intros i Hi; [cbn in Hi; lia |].
  destruct i as [| i]; cbn [alter list_alter].
  - rewrite !seats_cons. cbn. rewrite <- (assoc_L (++)). cbn.
    by rewrite <- Permutation_middle.
  - rewrite !seats_cons. rewrite IH by (cbn in Hi; lia).
    by rewrite <- Permutation_middle.
Qed.

Lemma seatNonDealer_length (tables : list Table) (p : Player) :
  length (seatNonDealer tables p) = length tables.
Proof.
  unfold seatNonDealer. pose proof (sort_by_length table_size tables) as Hlen.
  destruct (sort_by table_size tables); cbn in *; lia.
Qed.

Lemma seatNonDealer_seats (tables : list Table) (p : Player) :
  tables <> [] -> seats (seatNonDealer tables p) ≡ₚ id p :: seats tables.
Proof.
  intros Hne. unfold seatNonDealer.
  pose proof (sort_by_perm table_size tables) as Hp.
  destruct (sort_by table_size tables) as [| t rest].
  - apply Permutation_nil_l in Hp. done.
  - rewrite <- (seats_perm _ _ Hp), !seats_cons. cbn.
    rewrite <- (assoc_L (++)). cbn. by rewrite <- Permutation_middle.
Qed.

Lemma foldl_seatNonDealer_length (ps : list Player) (tables : list Table) :
  length (foldl seatNonDealer tables ps) = length tables.
Proof.
  revert tables. induction ps as [| p ps IH]; intros tables; [done |].
  cbn [foldl]. by rewrite IH, seatNonDealer_length.
Qed.

Lemma foldl_seatNonDealer_seats (ps : list Player) (tables : list Table) :
  tables <> [] ->
  seats (foldl seatNonDealer tables ps) ≡ₚ (id <$> ps) ++ seats tables.
Proof.
  revert tables. induction ps as [| p ps IH]; intros tables Hne; [done |].
  cbn [foldl]. rewrite IH.
  - rewrite seatNonDealer_seats by done. rewrite fmap_cons.
    by rewrite <- Permutation_middle.
  - intros Hnil. apply (f_equal length) in Hnil.
    rewrite seatNonDealer_length in Hnil. by destruct tables.
Qed.

Lemma emptyTables_length (n : Z) : length (emptyTables n) = Z.to_nat n.
Proof. unfold emptyTables. by rewrite length_fmap, length_seq. Qed.

Lemma emptyTables_seats (n : Z) : seats (emptyTables n) = [].
Proof.
  unfold emptyTables, seats. generalize 0%nat.
  induction (Z.to_nat n) as [| k IH]; intros start; [done |].
  cbn. apply IH.
Qed.

Lemma emptyTables_size (n : Z) (t : Table) :
  t ∈ emptyTables n -> table_size t = 0.
Proof.
  unfold emptyTables. intros (i & -> & _)%list_elem_of_fmap. done.
Qed.

Lemma foldl_seatDealer (n : Z) (entries : list (nat * Player)) (tables : list Table) :
  1 <= n -> length tables = Z.to_nat n ->
  length (foldl (seatDealer n) tables entries) = Z.to_nat n
  /\ seats (foldl (seatDealer n) tables entries)
     ≡ₚ (id <$> entries.*2) ++ seats tables.
Proof.
  intros Hn. revert tables.
  induction entries as [| [i d] entries IH]; intros tables Hlen; [done |].
  cbn [foldl]. destruct (IH (seatDealer n tables (i, d))) as [Hl Hs].
  { unfold seatDealer. by rewrite length_alter. }
  split; [done |]. rewrite Hs. unfold seatDealer. cbn.
  rewrite seats_alter_push.
  - by rewrite <- Permutation_middle.
  - rewrite Hlen. pose proof (Z.mod_pos_bound (Z.of_nat i) n). lia.
Qed.

Lemma snd_imap {A : Type} (f : nat -> A -> nat * A) (l : list A) :
  (forall i x, (f i x).2 = x) -> (imap f l).*2 = l.
Proof.
  revert f. induction l as [| x l IH]; intros f Hf; [done |].
  rewrite imap_cons, fmap_cons, Hf. f_equal. apply IH. intros i y. apply Hf.
Qed.

Lemma dealersSeated_spec (players : list Player) (numberOfTables : Z) :
  dealersSeated players numberOfTables <> []
  /\ seats (dealersSeated players numberOfTables)
     ≡ₚ id <$> filter (fun p => isDealer p = true) players.
Proof.
  unfold dealersSeated.
  set (n := Z.max 1 (Z.min 3 numberOfTables)).
  destruct (foldl_seatDealer n
              (imap pair (filter (fun p => isDealer p = true) players))
              (emptyTables n)) as [Hlen Hseats].
  { lia. }
  { apply emptyTables_length. }
  split.
  - intros Hnil. rewrite Hnil in Hlen. cbn in Hlen. lia.
  - rewrite Hseats, emptyTables_seats, app_nil_r. by rewrite snd_imap.
Qed.

Lemma dealers_complement (players : list Player) :
  filter (fun p => isDealer p = true) players
  ++ filter (fun p => isDealer p = false) players ≡ₚ players.
Proof.
  rewrite <- (filter_app_complement (fun p => isDealer p = true) players) at 3.
  f_equiv. erewrite list_filter_iff; [done |]. intros p. cbn beta. destruct (isDealer p); split; congruence.
Qed.

(** Every player of the roster gets one seat, whatever the flags, the number
    of tables and the draws. *)
Lemma drawTables_seats (rnd : list nat) (players : list Player) (numberOfTables : Z) :
  seats (drawTables rnd players numberOfTables) ≡ₚ id <$> players.
Proof.
  unfold drawTables. case_decide as Hlen.
  - by destruct players.
  - destruct (dealersSeated_spec players numberOfTables) as [Hne Hd].
    rewrite (seats_perm _ _ (sort_by_perm table_id _)).
    rewrite foldl_seatNonDealer_seats by done.
    unfold shuffledNonDealers. rewrite shuffle_perm, Hd.
    rewrite <- fmap_app. f_equiv.
    rewrite Permutation_app_comm. apply dealers_complement.
Qed.

Lemma seatNonDealer_balanced (tables : list Table) (p : Player) :
  balanced tables -> balanced (seatNonDealer tables p).
Proof.
  intros Hb. unfold seatNonDealer.
  pose proof (sort_by_perm table_size tables) as Hp.
  pose proof (sort_by_head_least table_size tables) as Hleast.
  destruct (sort_by table_size tables) as [| t rest];
    [by intros ? ? ?%elem_of_nil |].
  destruct (Hleast t eq_refl) as [Ht Hmin].
  assert (Hrest : forall t', t' ∈ rest -> t' ∈ tables).
  { intros t' Hin. rewrite <- Hp. by right. }
  assert (Hsize : table_size (push_player (id p) t) = table_size t + 1).
  { unfold table_size, push_player. cbn. rewrite length_app. cbn. lia. }
  intros t1 t2 [-> | H1]%elem_of_cons [-> | H2]%elem_of_cons.
  - lia.
  - rewrite Hsize. specialize (Hmin t2 (Hrest _ H2)). lia.
  - rewrite Hsize. specialize (Hb t1 t (Hrest _ H1) Ht). lia.
  - apply Hb; auto.
Qed.

Lemma foldl_seatNonDealer_balanced (ps : list Player) (tables : list Table) :
  balanced tables -> balanced (foldl seatNonDealer tables ps).
Proof.
  revert tables. induction ps as [| p ps IH]; intros tables Hb; [done |].
  cbn [foldl]. by apply IH, seatNonDealer_balanced.
Qed.

Lemma noDealers_filter (players : list Player) :
  Forall (fun p => isDealer p = false) players ->
  filter (fun p => isDealer p = true) players = [].
Proof.
  induction 1 as [| p l Hp _ IH]; [done |].
  rewrite filter_cons_False; [done | congruence].
Qed.

(** C6: for a roster without dealers, a table count in [1,3] and any draws
    of the shuffle, the tables that [drawTables] returns seat exactly the
    players of the roster: the seats are a rearrangement of the roster's ids,
    so there are as many seats as players and, the ids of a roster being
    distinct, nobody sits twice; and the sizes of any two tables differ by at
    most 1. *)
Theorem drawTables_fair (rnd : list nat) (players : list Player) (tableCount : Z) :
  Forall (fun p => isDealer p = false) players ->
  1 <= tableCount <= 3 ->
  let drawn := drawTables rnd players tableCount in
  seats drawn ≡ₚ id <$> players
  /\ length (seats drawn) = length players
  /\ (NoDup (id <$> players) -> NoDup (seats drawn))
  /\ forall t1 t2, t1 ∈ drawn -> t2 ∈ drawn ->
       Z.abs (table_size t1 - table_size t2) <= 1.
Proof.
  intros Hnd _ drawn.
  pose proof (drawTables_seats rnd players tableCount) as Hseats.
  fold drawn in Hseats.
  split; [done |]. split; [by rewrite Hseats, length_fmap |].
  split; [intros Hdup; by rewrite Hseats |].
  assert (Hb : balanced drawn).
  { subst drawn. unfold drawTables. case_decide; [by intros ? ? ?%elem_of_nil |].
    intros t1 t2. rewrite !sort_by_perm. revert t1 t2.
    apply foldl_seatNonDealer_balanced.
    unfold dealersSeated. rewrite noDealers_filter by done. cbn.
    intros t1 t2 H1%emptyTables_size H2%emptyTables_size. lia. }
  intros t1 t2 H1 H2.
  pose proof (Hb t1 t2 H1 H2). pose proof (Hb t2 t1 H2 H1). lia.
Qed.

Lemma drawTables_fair_witness :
  Forall (fun p => isDealer p = false) fourPlayers
  /\ 1 <= 3 <= 3
  /\ seats (drawTables [] fourPlayers 3) ≡ₚ id <$> fourPlayers
  /\ length (seats (drawTables [] fourPlayers 3)) = 4%nat.
Proof.
  assert (Hnd : Forall (fun p => isDealer p = false) fourPlayers).
  { repeat constructor. }
  assert (Hcount : 1 <= 3 <= 3) by lia.
  destruct (drawTables_fair [] fourPlayers 3 Hnd Hcount) as (Hperm & Hlen & _).
  split; [exact Hnd |]. split; [exact Hcount |]. split; [exact Hperm | exact Hlen].
Defined.

Lemma seatingStates_length (ps : list Player) (tables tbls : list Table) :
  tbls ∈ seatingStates tables ps -> length tbls = length tables.
Proof.
  revert tables. induction ps as [| p ps IH]; intros tables; cbn.
  - by intros ?%elem_of_nil.
  - intros [-> | Hin]%elem_of_cons; [done |].
    by rewrite (IH _ Hin), seatNonDealer_length.
Qed.

(** The fold of [drawTables] runs through the states of [seatingStates]. *)
Lemma seatingStates_foldl (ps : list Player) (p : Player) (tables : list Table) :
  seatingStates tables (ps ++ [p])
  = seatingStates tables ps ++ [foldl seatNonDealer tables ps].
Proof.
  revert tables. induction ps as [| q ps IH]; intros tables; [done |].
  cbn. by rewrite IH.
Qed.

(** Four players, three tables, every draw of the shuffle 0: the shuffle
    yields b, c, d, a and the fourth player, a, joins d at table 3. *)
Example four_players_three_tables :
  shuffledNonDealers [] fourPlayers = [guest "b"; guest "c"; guest "d"; guest "a"]
  /\ table_players <$> drawTables [] fourPlayers 3 = [["b"]; ["c"]; ["d"; "a"]].
Proof. split; reflexivity. Qed.

(** C7, as stated, fails on the program. Four players without a dealer flag
    and three tables: the first three players go to tables 1, 2 and 3, and
    each sort moves the table just filled behind the others, so the fourth
    player finds the array in the order 3, 2, 1 with one player at each
    table. The sort is stable and leaves that order, and the player is pushed
    onto table 3, although table 1 is as small and has the lower id. *)
Lemma lowest_id_tie_break_fails :
  ~ (forall rnd players numberOfTables,
       seatsAtFewest rnd players numberOfTables
       /\ tiesToLowestId rnd players numberOfTables).
Proof.
  intros Hall. destruct (Hall [] fourPlayers 3) as [_ Hties].
  specialize (Hties
    [ {| table_id := 3; table_players := ["d"] |};
      {| table_id := 2; table_players := ["c"] |};
      {| table_id := 1; table_players := ["b"] |} ]
    {| table_id := 3; table_players := ["d"] |}).
  specialize (Hties ltac:(vm_compute; repeat constructor) eq_refl
    {| table_id := 1; table_players := ["b"] |}
    ltac:(repeat constructor) eq_refl).
  cbn in Hties. lia.
Qed.

(** C7, amended: for every roster, table count and draws, each shuffled
    non-dealer is pushed onto a table that has the fewest players at that
    moment; among the tables that tie, it is the one that comes first in the
    working array, in the order the earlier in-place sorts left it, and not
    the one of lowest id. *)
Theorem seat_goes_to_first_smallest (rnd : list nat) (players : list Player)
    (numberOfTables : Z) (tbls : list Table) (p : Player) :
  tbls ∈ drawStates rnd players numberOfTables ->
  exists t rest i,
    sort_by table_size tbls = t :: rest
    /\ seatTarget tbls = Some t
    /\ seatNonDealer tbls p = push_player (id p) t :: rest
    /\ (forall t', t' ∈ tbls -> table_size t <= table_size t')
    /\ tbls !! i = Some t
    /\ (forall j t', tbls !! j = Some t' -> (j < i)%nat ->
          table_size t < table_size t').
Proof.
  intros Hin. apply seatingStates_length in Hin.
  destruct (dealersSeated_spec players numberOfTables) as [Hne _].
  pose proof (sort_by_length table_size tbls) as Hlen.
  unfold seatTarget, seatNonDealer.
  pose proof (sort_by_head_least table_size tbls) as Hleast.
  pose proof (sort_by_head_first table_size tbls) as Hfirst.
  destruct (sort_by table_size tbls) as [| t rest].
  - exfalso. apply Hne. apply nil_length_inv. cbn in Hlen. lia.
  - destruct (Hleast t eq_refl) as [_ Hmin].
    destruct (Hfirst t eq_refl) as (i & Hi & Hbefore).
    exists t, rest, i. repeat split; auto.
Qed.

Lemma seat_goes_to_first_smallest_witness :
  [ {| table_id := 3; table_players := ["d"] |};
    {| table_id := 2; table_players := ["c"] |};
    {| table_id := 1; table_players := ["b"] |} ] ∈ drawStates [] fourPlayers 3
  /\ exists t rest i,
       sort_by table_size
         [ {| table_id := 3; table_players := ["d"] |};
           {| table_id := 2; table_players := ["c"] |};
           {| table_id := 1; table_players := ["b"] |} ] = t :: rest
       /\ table_id t = 3 /\ i = O.
Proof.
  assert (Hin : [ {| table_id := 3; table_players := ["d"] |};
                  {| table_id := 2; table_players := ["c"] |};
                  {| table_id := 1; table_players := ["b"] |} ]
                ∈ drawStates [] fourPlayers 3).
  { vm_compute. repeat constructor. }
  split; [exact Hin |].
  destruct (seat_goes_to_first_smallest [] fourPlayers 3 _ (guest "a") Hin)
    as (t & rest & i & Hsort & _ & _ & _ & Hi & Hbefore).
  exists t, rest, i. split; [done |].
  vm_compute in Hsort. injection Hsort as <- <-. split; [done |].
  destruct i as [| i]; [done |].
  specialize (Hbefore O _ eq_refl ltac:(lia)). cbn in Hbefore. lia.
Defined.

(** * Ledger operations *)

Lemma updateSession_lookup (pid : string) (field : SessionField) (delta : Z)
    (sessions : list PlayerSession) (i : nat) (s : PlayerSession) :
  sessions !! i = Some s ->
  playerId s <> pid ->
  updateSession pid field delta sessions !! i = Some s.
Proof.
  intros Hi Hne. unfold updateSession. rewrite list_lookup_fmap, Hi. cbn.
  by rewrite decide_True.
Qed.

Lemma map_unchanged {A : Type} (f : A -> A) (l : list A) :
  (forall x, x ∈ l -> f x = x) -> f <$> l = l.
Proof.
  intros Hf. rewrite <- (list_fmap_id l) at 2.
  apply list_fmap_ext. intros i x Hx. apply Hf. by eapply list_elem_of_lookup_2.
Qed.

Lemma unknown_player (pid : string) (sessions : list PlayerSession) (s : PlayerSession) :
  pid ∉ playerId <$> sessions -> s ∈ sessions -> playerId s <> pid.
Proof. intros Hun Hs <-. apply Hun. by apply list_elem_of_fmap_2. Qed.

(** C10: for a field among [rebuys] and [addOns] and any delta,
    [updateSession] keeps the length of the list and, at every index, the
    player id, the buy-ins and the rank of the session; a session of another
    player is unchanged altogether; in a session of [pid] only the named
    field changes, to the old value plus delta clamped to [0,1] for [addOns]
    and to 0 or more for [rebuys]. *)
Theorem updateSession_frame (sessions : list PlayerSession) (pid : string)
    (field : SessionField) (delta : Z) (i : nat) (s : PlayerSession) :
  field = K_rebuys \/ field = K_addOns ->
  sessions !! i = Some s ->
  exists s',
    updateSession pid field delta sessions !! i = Some s'
    /\ length (updateSession pid field delta sessions) = length sessions
    /\ playerId s' = playerId s /\ buyIns s' = buyIns s /\ rank s' = rank s
    /\ (playerId s <> pid -> s' = s)
    /\ (field = K_rebuys ->
          addOns s' = addOns s
          /\ (playerId s = pid -> rebuys s' = Z.max 0 (rebuys s + delta)))
    /\ (field = K_addOns ->
          rebuys s' = rebuys s
          /\ (playerId s = pid ->
                addOns s' = Z.max 0 (Z.min 1 (addOns s + delta)))).
Proof.
  intros Hfield Hi. unfold updateSession.
  rewrite list_lookup_fmap, Hi, length_fmap. cbn.
  eexists. split; [reflexivity |]. split; [reflexivity |].
  destruct (decide (playerId s ≠ pid)) as [Hne | Heq].
  - repeat split; auto; intros; congruence.
  - destruct Hfield as [-> | ->]; cbn; repeat split; auto; try congruence;
      intros; contradiction.
Qed.

Lemma updateSession_frame_witness :
  (K_rebuys = K_rebuys \/ K_rebuys = K_addOns)
  /\ holder !! O = Some {| playerId := "1"; buyIns := 1; rebuys := 0;
                           addOns := 0; rank := Some 1 |}
  /\ updateSession "1" K_rebuys 2 holder !! O
     = Some {| playerId := "1"; buyIns := 1; rebuys := 2; addOns := 0;
               rank := Some 1 |}.
Proof.
  assert (Hfield : K_rebuys = K_rebuys \/ K_rebuys = K_addOns) by (by left).
  assert (Hi : holder !! O = Some {| playerId := "1"; buyIns := 1; rebuys := 0;
                                    addOns := 0; rank := Some 1 |})
    by reflexivity.
  split; [exact Hfield |]. split; [exact Hi |].
  destruct (updateSession_frame holder "1" K_rebuys 2 O _ Hfield Hi)
    as (s' & Hs' & _).
  rewrite Hs'. vm_compute in Hs'. congruence.
Defined.

(** C8, as stated, fails on the program for [setRank]. One session, of
    player "1", holds rank 1; [setRank "9" 1] names a player without a
    session, and still the second branch of the updater clears the rank of
    player "1": the list that comes back is not the one that went in. *)
Lemma setRank_unknown_player_evicts :
  ~ (forall (sessions : list PlayerSession) (pid : string),
       pid ∉ playerId <$> sessions ->
       (forall field delta, field = K_rebuys \/ field = K_addOns ->
          updateSession pid field delta sessions = sessions)
       /\ (forall r, setRank pid r sessions = sessions)).
Proof.
  intros Hall. destruct (Hall holder "9") as [_ Hset].
  - vm_compute. by intros [[=] | []%elem_of_nil]%elem_of_cons.
  - specialize (Hset 1). vm_compute in Hset. discriminate Hset.
Qed.

(** C8, amended: for a player id that matches no session, [updateSession]
    returns the list unchanged, for every field and delta, and [setRank]
    changes nothing but the rank of a session that holds the given rank,
    which it clears; [setRank] returns the list unchanged when no session
    holds that rank. Neither raises an error. *)
Theorem unknown_player_operations (sessions : list PlayerSession) (pid : string) :
  pid ∉ playerId <$> sessions ->
  (forall field delta, updateSession pid field delta sessions = sessions)
  /\ (forall r, setRank pid r sessions = evict r <$> sessions)
  /\ (forall r, Some r ∉ rank <$> sessions -> setRank pid r sessions = sessions).
Proof.
  intros Hun.
  assert (Hset : forall r, setRank pid r sessions = evict r <$> sessions).
  { intros r. unfold setRank. apply list_fmap_ext. intros i s Hs.
    rewrite decide_False; [done |].
    eapply unknown_player; [done | by eapply list_elem_of_lookup_2]. }
  split; [| split; [done |]].
  - intros field delta. unfold updateSession. apply map_unchanged.
    intros s Hs. rewrite decide_True; [done |]. by eapply unknown_player.
  - intros r Hr. rewrite Hset. apply map_unchanged. intros s Hs.
    unfold evict. rewrite decide_False; [done |].
    intros Hrank. apply Hr. rewrite <- Hrank. by apply list_elem_of_fmap_2.
Qed.

Lemma unknown_player_operations_witness :
  ("9" ∉ playerId <$> holder)
  /\ updateSession "9" K_rebuys 1 holder = holder
  /\ setRank "9" 1 holder = evict 1 <$> holder
  /\ setRank "9" 2 holder = holder.
Proof.
  assert (Hun : "9" ∉ playerId <$> holder).
  { vm_compute. by intros [[=] | []%elem_of_nil]%elem_of_cons. }
  destruct (unknown_player_operations holder "9" Hun) as (Hupd & Hset & Hfree).
  split; [done |]. split; [apply Hupd |]. split; [apply Hset |].
  apply Hfree. vm_compute. by intros [[=] | []%elem_of_nil]%elem_of_cons.
Defined.

(** * Rank override *)

Lemma setRank_lookup (pid : string) (r : Z) (sessions : list PlayerSession) (i : nat) :
  setRank pid r sessions !! i
  = (fun s => if decide (playerId s = pid) then withRank (Some r) s else evict r s)
      <$> sessions !! i.
Proof. unfold setRank. by rewrite list_lookup_fmap. Qed.



(** * Elimination ranking *)

Lemma lowerRank_spec (assigned : list Z) (m n : nat) :
  (m <= n)%nat ->
  (forall r : nat, (m < r <= n)%nat -> Z.of_nat r ∈ assigned) ->
  (m = O \/ Z.of_nat m ∉ assigned) ->
  lowerRank assigned n = m.
Proof.
  intros Hmn Hin Hm. induction n as [| n IH].
  - cbn. lia.
  - cbn [lowerRank]. destruct (decide (m = S n)) as [-> | Hne].
    + destruct Hm as [Hm | Hm]; [lia |]. by rewrite decide_False.
    + rewrite decide_True by (apply Hin; lia).
      apply IH; [lia |]. intros r Hr. apply Hin. lia.
Qed.

Lemma elimRank_range (order : list string) (n : Z) (p : string) (r : Z) :
  elimRank order n p = Some r -> n - Z.of_nat (length order) < r <= n.
Proof.
  revert n. induction order as [| q rest IH]; intros n; cbn; [done |].
  case_decide.
  - intros [= <-]. lia.
  - intros Hr%IH. lia.
Qed.

Lemma elimRank_None (order : list string) (n : Z) (p : string) :
  p ∉ order -> elimRank order n p = None.
Proof.
  revert n. induction order as [| q rest IH]; intros n Hp; cbn; [done |].
  rewrite decide_False by (intros ->; apply Hp; by left).
  apply IH. intros Hin. apply Hp. by right.
Qed.

Lemma elimRank_lookup (order : list string) (n : Z) (i : nat) (p : string) :
  NoDup order -> order !! i = Some p ->
  elimRank order n p = Some (n - Z.of_nat i).
Proof.
  intros Hnd. revert n i. induction Hnd as [| q rest Hq _ IH]; intros n i; [done |].
  destruct i as [| i]; cbn.
  - intros [= ->]. rewrite decide_True by done. f_equal. lia.
  - intros Hi. rewrite decide_False.
    + rewrite (IH _ _ Hi). f_equal. lia.
    + intros ->. apply Hq. by eapply list_elem_of_lookup_2.
Qed.

Lemma elimRank_snoc (order : list string) (n : Z) (p q : string) :
  elimRank (order ++ [p]) n q
  = match elimRank order n q with
    | Some r => Some r
    | None => if decide (q = p) then Some (n - Z.of_nat (length order)) else None
    end.
Proof.
  revert n. induction order as [| o rest IH]; intros n; cbn.
  - destruct (decide (q = p)); [f_equal; lia | reflexivity].
  - destruct (decide (q = o)); [reflexivity |]. rewrite IH.
    destruct (elimRank rest (n - 1) q); [reflexivity |].
    destruct (decide (q = p)); [f_equal; lia | reflexivity].
Qed.

Lemma elimRank_countdown (order : list string) (n : Z) :
  NoDup order ->
  elimRank order n <$> order
  = (fun i : nat => Some (n - Z.of_nat i)) <$> seq 0 (length order).
Proof.
  intros Hnd. apply list_eq. intros i.
  rewrite !list_lookup_fmap.
  destruct (order !! i) as [p |] eqn:Hi; cbn.
  - rewrite (elimRank_lookup _ _ _ _ Hnd Hi).
    assert (Hlt : (i < length order)%nat) by (by eapply lookup_lt_Some).
    by rewrite (lookup_seq_lt _ _ _ Hlt).
  - apply lookup_ge_None in Hi. by rewrite lookup_seq_ge.
Qed.

Section Elimination.

(** A round of [N] players, nobody eliminated yet. *)
Variable sessions0 : list PlayerSession.
Variable N : nat.
Hypothesis nobody_ranked : Forall (fun s => rank s = None) sessions0.
Hypothesis ids_distinct : NoDup (playerId <$> sessions0).
Hypothesis count : length sessions0 = N.

Lemma ranked_nil : ranked sessions0 N [] = sessions0.
Proof.
  unfold ranked. apply map_unchanged. intros s Hs. cbn.
  rewrite Forall_forall in nobody_ranked. specialize (nobody_ranked s Hs).
  destruct s; cbn in *. by subst.
Qed.

Lemma order_length (order : list string) :
  NoDup order -> order ⊆ playerId <$> sessions0 -> (length order <= N)%nat.
Proof.
  intros Hnd Hsub. rewrite <- count, <- (length_fmap playerId sessions0).
  apply submseteq_length. by apply NoDup_submseteq.
Qed.

Lemma ranked_assigned (order : list string) (r : Z) :
  NoDup order -> order ⊆ playerId <$> sessions0 ->
  r ∈ omap rank (ranked sessions0 N order)
  <-> Z.of_nat N - Z.of_nat (length order) < r <= Z.of_nat N.
Proof.
  intros Hnd Hsub. rewrite list_elem_of_omap. split.
  - intros (s & Hs & Hr). unfold ranked in Hs.
    apply list_elem_of_fmap in Hs as (s0 & -> & _). cbn in Hr.
    by apply elimRank_range in Hr.
  - intros Hr.
    destruct (lookup_lt_is_Some_2 order (Z.to_nat (Z.of_nat N - r))) as [p Hp];
      [lia |].
    assert (Hin : p ∈ playerId <$> sessions0).
    { apply Hsub. by eapply list_elem_of_lookup_2. }
    apply list_elem_of_fmap in Hin as (s0 & -> & Hs0).
    exists (withRank (elimRank order (Z.of_nat N) (playerId s0)) s0). split.
    + unfold ranked.
      by apply (list_elem_of_fmap_2
                  (fun s => withRank (elimRank order (Z.of_nat N) (playerId s)) s)).
    + cbn. rewrite (elimRank_lookup _ _ _ _ Hnd Hp). f_equal. lia.
Qed.

Lemma ranked_nextRank (order : list string) :
  NoDup order -> order ⊆ playerId <$> sessions0 ->
  lowerRank (omap rank (ranked sessions0 N order)) N = (N - length order)%nat.
Proof.
  intros Hnd Hsub. pose proof (order_length order Hnd Hsub) as Hlen.
  apply lowerRank_spec; [lia | |].
  - intros r Hr. apply ranked_assigned; [done | done | lia].
  - destruct (decide (N - length order = 0)%nat) as [Hz | Hnz]; [by left | right].
    rewrite ranked_assigned by done. lia.
Qed.

Lemma ranked_snoc (order : list string) (p : string) :
  p ∉ order ->
  setRank p (Z.of_nat N - Z.of_nat (length order)) (ranked sessions0 N order)
  = ranked sessions0 N (order ++ [p]).
Proof.
  intros Hp. unfold setRank, ranked. rewrite <- list_fmap_compose.
  apply list_fmap_ext. intros i s Hs. cbn. rewrite elimRank_snoc.
  destruct (decide (playerId s = p)) as [-> | Hne].
  - by rewrite (elimRank_None _ _ _ Hp).
  - destruct (elimRank order (Z.of_nat N) (playerId s)) as [r |] eqn:Hr.
    + apply elimRank_range in Hr. rewrite decide_False; [done |].
      intros [= ->]. lia.
    + by rewrite decide_False.
Qed.

End Elimination.

Lemma startRound_sessions (rnd : list nat) (st : AppState) :
  gameSessions (startRound rnd st) = newSession <$> activePlayers st.
Proof. reflexivity. Qed.

Lemma startRound_ids (rnd : list nat) (st : AppState) :
  playerId <$> gameSessions (startRound rnd st) = id <$> activePlayers st.
Proof.
  rewrite startRound_sessions, <- list_fmap_compose. by apply list_fmap_ext.
Qed.

Lemma activePlayers_ids (st : AppState) (x : string) :
  (forall y, y ∈ checkedInIds st -> y ∈ id <$> players st) ->
  x ∈ id <$> activePlayers st <-> x ∈ checkedInIds st.
Proof.
  intros Hreg. unfold activePlayers. rewrite list_elem_of_fmap. split.
  - intros (p & -> & Hp). by apply list_elem_of_filter in Hp as [Hp _].
  - intros Hx. pose proof (Hreg x Hx) as Hin.
    apply list_elem_of_fmap in Hin as (p & -> & Hp).
    exists p. split; [done |]. by apply list_elem_of_filter.
Qed.

Lemma activePlayers_NoDup (st : AppState) :
  NoDup (id <$> players st) -> NoDup (id <$> activePlayers st).
Proof.
  intros Hnd. eapply sublist_NoDup; [exact Hnd |].
  apply fmap_sublist. apply sublist_filter.
Qed.

Lemma activePlayers_count (st : AppState) :
  NoDup (id <$> players st) ->
  (forall y, y ∈ checkedInIds st -> y ∈ id <$> players st) ->
  length (activePlayers st) = size (checkedInIds st).
Proof.
  intros Hnd Hreg. rewrite <- (length_fmap id (activePlayers st)).
  unfold size, set_size. cbn. apply Permutation_length.
  apply NoDup_Permutation; [by apply activePlayers_NoDup | apply NoDup_elements |].
  intros x. rewrite elem_of_elements. by apply activePlayers_ids.
Qed.

Lemma handleElimination_checkedIn (pid : string) (st : AppState) :
  checkedInIds (handleElimination pid st) = checkedInIds st.
Proof. unfold handleElimination. by case_decide. Qed.

Lemma eliminateAll_snoc (order : list string) (p : string) (st : AppState) :
  eliminateAll (order ++ [p]) st = handleElimination p (eliminateAll order st).
Proof. unfold eliminateAll. by rewrite foldl_snoc. Qed.

Lemma eliminateAll_ranked (order : list string) (st : AppState) :
  Forall (fun s => rank s = None) (gameSessions st) ->
  NoDup (playerId <$> gameSessions st) ->
  length (gameSessions st) = size (checkedInIds st) ->
  NoDup order -> order ⊆ playerId <$> gameSessions st ->
  checkedInIds (eliminateAll order st) = checkedInIds st
  /\ gameSessions (eliminateAll order st)
     = ranked (gameSessions st) (size (checkedInIds st)) order.
Proof.
  intros Hfresh Hids Hcount.
  induction order as [| p order IH] using rev_ind; intros Hnd Hsub.
  - split; [done |]. cbn. by rewrite ranked_nil.
  - apply NoDup_app in Hnd as (Hnd & Hp & _).
    assert (Hsub' : order ⊆ playerId <$> gameSessions st).
    { intros x Hx. apply Hsub. apply elem_of_app. by left. }
    destruct (IH Hnd Hsub') as [Hchk Hsess].
    rewrite eliminateAll_snoc.
    split; [by rewrite handleElimination_checkedIn |].
    assert (Hlen : (length (order ++ [p]) <= size (checkedInIds st))%nat).
    { eapply order_length; [exact Hcount | | exact Hsub].
      apply NoDup_app. split; [done |]. split; [done | apply NoDup_singleton]. }
    rewrite length_app in Hlen. cbn in Hlen.
    unfold handleElimination. rewrite Hchk, Hsess.
    rewrite (ranked_nextRank _ _ Hcount) by done.
    rewrite decide_True by lia. cbn.
    rewrite Hsess, Nat2Z.inj_sub by lia.
    apply ranked_snoc; [exact Hcount |]. intros Hin. by apply (Hp p Hin), list_elem_of_singleton.
Qed.

(** C4: a round is started with [N] checked-in players, so that no rank is
    assigned, and the players of [order], all different, are eliminated one
    at a time. The player eliminated in place [i] (from 0) holds rank
    [N - i], that is [N], [N - 1], ... in that order, and the players not
    yet eliminated hold none. Once all [N] are out, the ranks held are
    [N], [N - 1], ..., [1], each exactly once, and one more elimination, of
    whatever player id, leaves the state as it is. *)
Theorem eliminations_count_down (rnd : list nat) (st0 : AppState)
    (order : list string) :
  NoDup (id <$> players st0) ->
  (forall y, y ∈ checkedInIds st0 -> y ∈ id <$> players st0) ->
  NoDup order ->
  (forall p, p ∈ order -> p ∈ checkedInIds st0) ->
  let N := size (checkedInIds st0) in
  let final := eliminateAll order (startRound rnd st0) in
  playerId <$> gameSessions final = id <$> activePlayers st0
  /\ (forall i p, order !! i = Some p ->
        exists s, s ∈ gameSessions final /\ playerId s = p)
  /\ (forall i p s, order !! i = Some p ->
        s ∈ gameSessions final -> playerId s = p ->
        rank s = Some (Z.of_nat N - Z.of_nat i))
  /\ (forall s, s ∈ gameSessions final -> playerId s ∉ order -> rank s = None)
  /\ (length order = N ->
        rank <$> gameSessions final
          ≡ₚ (fun i : nat => Some (Z.of_nat N - Z.of_nat i)) <$> seq 0 N
        /\ forall q, handleElimination q final = final).
Proof.
  intros Hnd Hreg Hord Hsub N final.
  assert (Hids : playerId <$> gameSessions (startRound rnd st0)
                 = id <$> activePlayers st0) by apply startRound_ids.
  assert (Hcount : length (gameSessions (startRound rnd st0)) = N).
  { rewrite startRound_sessions, length_fmap.
    exact (activePlayers_count st0 Hnd Hreg). }
  assert (Hsub' : order ⊆ playerId <$> gameSessions (startRound rnd st0)).
  { intros p Hp. rewrite Hids. apply activePlayers_ids; auto. }
  destruct (eliminateAll_ranked order (startRound rnd st0)) as [Hchk Hsess];
    try done.
  { rewrite startRound_sessions. by apply Forall_fmap, Forall_true. }
  { rewrite Hids. by apply activePlayers_NoDup. }
  change (checkedInIds (startRound rnd st0)) with (checkedInIds st0) in Hchk, Hsess.
  fold final in Hchk, Hsess. fold N in Hsess.
  assert (Hfinal_ids : playerId <$> gameSessions final = id <$> activePlayers st0).
  { rewrite Hsess, <- Hids. unfold ranked. rewrite <- list_fmap_compose.
    by apply list_fmap_ext. }
  assert (Hrank : forall s, s ∈ gameSessions final ->
            rank s = elimRank order (Z.of_nat N) (playerId s)).
  { intros s. rewrite Hsess. unfold ranked.
    by intros (s0 & -> & _)%list_elem_of_fmap. }
  split; [done |]. split; [| split; [| split]].
  - intros i p Hi.
    assert (Hp : p ∈ playerId <$> gameSessions final).
    { rewrite Hfinal_ids. apply activePlayers_ids; [done |].
      apply Hsub. by eapply list_elem_of_lookup_2. }
    apply list_elem_of_fmap in Hp as (s & -> & Hs). by exists s.
  - intros i p s Hi Hs <-. rewrite (Hrank s Hs). by apply elimRank_lookup.
  - intros s Hs Hout. rewrite (Hrank s Hs). by apply elimRank_None.
  - intros Hlen.
    assert (Hperm : id <$> activePlayers st0 ≡ₚ order).
    { symmetry. apply submseteq_length_Permutation.
      - apply NoDup_submseteq; [done |]. intros p Hp. rewrite <- Hids. by apply Hsub'.
      - rewrite length_fmap, activePlayers_count by done. fold N. lia. }
    split.
    + assert (Heq : rank <$> gameSessions final
                    = elimRank order (Z.of_nat N) <$> (playerId <$> gameSessions final)).
      { rewrite <- list_fmap_compose. apply list_fmap_ext.
        intros i s Hs. apply Hrank. by eapply list_elem_of_lookup_2. }
      rewrite Heq, Hfinal_ids, Hperm, elimRank_countdown by done. by rewrite Hlen.
    + intros q. unfold handleElimination. rewrite Hchk, Hsess. fold N.
      rewrite (ranked_nextRank (gameSessions (startRound rnd st0)) N) by done.
      rewrite decide_False; [done | lia].
Qed.

Lemma eliminations_count_down_witness :
  NoDup (id <$> players threePlayers)
  /\ (forall y, y ∈ checkedInIds threePlayers -> y ∈ id <$> players threePlayers)
  /\ NoDup ["2"; "3"; "1"]
  /\ (forall p, p ∈ ["2"; "3"; "1"] -> p ∈ checkedInIds threePlayers)
  /\ rank <$> gameSessions (eliminateAll ["2"; "3"; "1"] (startRound [] threePlayers))
     ≡ₚ [Some 3; Some 2; Some 1]
  /\ forall q,
       handleElimination q (eliminateAll ["2"; "3"; "1"] (startRound [] threePlayers))
       = eliminateAll ["2"; "3"; "1"] (startRound [] threePlayers).
Proof.
  assert (Hids : NoDup (id <$> players threePlayers)).
  { apply (bool_decide_unpack _). vm_compute. exact I. }
  assert (Hord : NoDup ["2"; "3"; "1"]).
  { apply (bool_decide_unpack _). vm_compute. exact I. }
  assert (Hreg : forall y, y ∈ checkedInIds threePlayers ->
                   y ∈ id <$> players threePlayers).
  { intros y. cbn. rewrite !elem_of_union, !elem_of_singleton.
    intros [[-> | ->] | ->]; repeat constructor. }
  assert (Hsub : forall p, p ∈ ["2"; "3"; "1"] -> p ∈ checkedInIds threePlayers).
  { intros p. cbn. rewrite !elem_of_cons, elem_of_nil.
    rewrite !elem_of_union, !elem_of_singleton. tauto. }
  destruct (eliminations_count_down [] threePlayers ["2"; "3"; "1"]
              Hids Hreg Hord Hsub) as (_ & _ & _ & _ & Hfull).
  destruct (Hfull eq_refl) as [Hperm Hnoop].
  split; [exact Hids |]. split; [exact Hreg |]. split; [exact Hord |].
  split; [exact Hsub |]. split; [exact Hperm | exact Hnoop].
Defined.

(** * Round start *)

(** C9, as stated, fails on the program: [startRound] has no guard and no
    failure to report. With a single player checked in it draws one table,
    seats the player and opens a session for that player. *)
Lemma startRound_unguarded :
  ~ (forall rnd st, (size (checkedInIds st) < 2)%nat ->
       tables (startRound rnd st) = tables st
       /\ gameSessions (startRound rnd st) = gameSessions st).
Proof.
  intros Hall. destruct (Hall [] oneCheckedIn) as [_ Hsessions].
  - vm_compute. lia.
  - vm_compute in Hsessions. discriminate Hsessions.
Qed.

(** C9, amended: with fewer than 2 players checked in, the round cannot be
    started from the interface: the start button is disabled and a click
    leaves the state as it is, so no seating plan and no session comes into
    being. This is the caller's guard, not a failure: [startRound] itself
    reports nothing and, run all the same, opens a session for each
    checked-in player, draws the tables and sets the phase. *)
Theorem start_disabled_below_two (rnd : list nat) (st : AppState) :
  (size (checkedInIds st) < 2)%nat ->
  startDisabled st = true
  /\ clickStart rnd st = st
  /\ gameSessions (startRound rnd st) = newSession <$> activePlayers st
  /\ tables (startRound rnd st) = drawTables rnd (activePlayers st) (numTables st)
  /\ gamePhase (startRound rnd st) = REBUYS_OPEN.
Proof.
  intros Hsize.
  assert (Hdis : startDisabled st = true) by (by apply bool_decide_eq_true).
  split; [done |]. split; [| done].
  unfold clickStart. by rewrite Hdis.
Qed.

Lemma start_disabled_below_two_witness :
  (size (checkedInIds oneCheckedIn) < 2)%nat
  /\ clickStart [] oneCheckedIn = oneCheckedIn.
Proof.
  assert (Hsize : (size (checkedInIds oneCheckedIn) < 2)%nat).
  { vm_compute. lia. }
  split; [exact Hsize |].
  exact (proj1 (proj2 (start_disabled_below_two [] oneCheckedIn Hsize))).
Defined.

(** * The shuffle *)

Section ShuffleReach.

Context {T : Type}.

Lemma swap_length (i j : nat) (array : list T) :
  length (swap i j array) = length array.
Proof.
  unfold swap. destruct (array !! i), (array !! j); try done.
  by rewrite !length_insert.
Qed.

Lemma shuffle_loop_length (currentIndex : nat) (rnd : list nat) (array : list T) :
  length (shuffle_loop currentIndex rnd array) = length array.
Proof. by rewrite shuffle_loop_perm. Qed.

Lemma swap_lookup_target (c ri : nat) (array : list T) (x y : T) :
  array !! c = Some y -> array !! ri = Some x ->
  swap c ri array = <[ri := y]> (<[c := x]> array).
Proof. intros Hc Hri. unfold swap. by rewrite Hc, Hri. Qed.

(** One pass of the loop can bring any element of the first [c + 1] cells
    to cell [c]; by induction the loop can produce any arrangement. *)
Lemma shuffle_loop_reaches (k : nat) (array target : list T) :
  length array = length target ->
  (k <= length array)%nat ->
  drop k array = drop k target ->
  take k array ≡ₚ take k target ->
  exists rnd, shuffle_loop k rnd array = target.
Proof.
  revert array. induction k as [| c IH]; intros array Hlen Hk Hdrop Hperm.
  - exists []. cbn. by rewrite !drop_0 in Hdrop.
  - destruct (lookup_lt_is_Some_2 target c) as [x Hx]; [lia |].
    destruct (lookup_lt_is_Some_2 array c) as [y Hy]; [lia |].
    assert (Hin : x ∈ take (S c) array).
    { rewrite Hperm. apply list_elem_of_lookup. exists c.
      rewrite lookup_take_lt by lia. done. }
    apply list_elem_of_lookup in Hin as [ri Hri].
    assert (Hri_lt : (ri < S c)%nat).
    { apply lookup_lt_Some in Hri. rewrite length_take in Hri. lia. }
    rewrite lookup_take_lt in Hri by lia.
    set (array' := swap c ri array).
    assert (Hswap : array' = <[ri := y]> (<[c := x]> array))
      by (by apply swap_lookup_target).
    assert (Hlen' : length array' = length array) by apply swap_length.
    assert (Hc' : array' !! c = Some x).
    { rewrite Hswap. destruct (decide (ri = c)) as [-> | Hne].
      - rewrite list_lookup_insert_eq by (rewrite length_insert; lia). congruence.
      - rewrite list_lookup_insert_ne by done.
        rewrite list_lookup_insert_eq by lia. done. }
    assert (Hbeyond : forall i, (c < i)%nat -> array' !! i = array !! i).
    { intros i Hi. rewrite Hswap.
      rewrite !list_lookup_insert_ne by lia. done. }
    destruct (IH array') as [rnd Hrnd].
    + lia.
    + lia.
    + apply list_eq. intros i. rewrite !lookup_drop.
      destruct i as [| i].
      * rewrite Nat.add_0_r. congruence.
      * rewrite Hbeyond by lia.
        replace (c + S i)%nat with (S c + i)%nat by lia.
        rewrite <- !lookup_drop. by rewrite Hdrop.
    + assert (Htake : take (S c) array' ≡ₚ take (S c) target).
      { rewrite <- Hperm. subst array'. unfold swap. rewrite Hy, Hri.
        rewrite !take_insert_lt by lia.
        apply Permutation_insert_swap; rewrite lookup_take_lt by lia; done. }
      rewrite (take_S_r array' c x Hc'), (take_S_r target c x Hx) in Htake.
      by apply (inj (.++ [x])) in Htake.
    + exists (ri :: rnd). cbn [shuffle_loop hd tl].
      rewrite Nat.mod_small by lia. exact Hrnd.
Qed.

End ShuffleReach.

(** X1: the values that [shuffle] can return for an array are exactly its
    rearrangements. Whatever [Math.random] yields, the result is a
    permutation of the array; and for every permutation of the array there
    are draws that make [shuffle] return it. *)
Theorem shuffle_gives_exactly_the_permutations {T : Type} (array target : list T) :
  (exists rnd, shuffle rnd array = target) <-> array ≡ₚ target.
Proof.
  split.
  - intros [rnd <-]. symmetry. apply shuffle_perm.
  - intros Hperm. unfold shuffle.
    assert (Hlen : length array = length target) by (by rewrite Hperm).
    apply shuffle_loop_reaches; [done | lia | | ].
    + rewrite !drop_ge by lia. done.
    + rewrite !take_ge by lia. done.
Qed.

(** * Shape of the draw *)

Lemma table_ids_alter (x : string) (i : nat) (tables : list Table) :
  table_id <$> alter (push_player x) i tables = table_id <$> tables.
Proof.
  revert i. induction tables as [| t tables IH]; intros [| i]; cbn; try done.
  by rewrite IH.
Qed.

Lemma table_ids_foldl_seatDealer (n : Z) (entries : list (nat * Player))
    (tables : list Table) :
  table_id <$> foldl (seatDealer n) tables entries = table_id <$> tables.
Proof.
  revert tables. induction entries as [| e entries IH]; intros tables; [done |].
  cbn [foldl]. rewrite IH. apply table_ids_alter.
Qed.

Lemma table_ids_seatNonDealer (tables : list Table) (p : Player) :
  table_id <$> seatNonDealer tables p ≡ₚ table_id <$> tables.
Proof.
  unfold seatNonDealer. pose proof (sort_by_perm table_size tables) as Hp.
  destruct (sort_by table_size tables) as [| t rest].
  - apply Permutation_nil_l in Hp. by subst.
  - rewrite <- Hp. done.
Qed.

Lemma table_ids_foldl_seatNonDealer (ps : list Player) (tables : list Table) :
  table_id <$> foldl seatNonDealer tables ps ≡ₚ table_id <$> tables.
Proof.
  revert tables. induction ps as [| p ps IH]; intros tables; [done |].
  cbn [foldl]. rewrite IH. apply table_ids_seatNonDealer.
Qed.

Lemma emptyTables_ids (n : Z) :
  table_id <$> emptyTables n = (fun i : nat => Z.of_nat i + 1) <$> seq 0 (Z.to_nat n).
Proof. unfold emptyTables. rewrite <- list_fmap_compose. by apply list_fmap_ext. Qed.

Lemma ascending_ids (start len : nat) :
  StronglySorted Z.le ((fun i : nat => Z.of_nat i + 1) <$> seq start len).
Proof.
  revert start. induction len as [| len IH]; intros start; cbn; constructor.
  - apply IH.
  - apply Forall_fmap, Forall_forall. intros i Hi%elem_of_seq. cbn. lia.
Qed.

Lemma sort_by_table_id_sorted (tables : list Table) :
  StronglySorted Z.le (table_id <$> sort_by table_id tables).
Proof.
  eapply StronglySorted_fmap; [| apply (sort_by_sorted table_id)]. done.
Qed.

Lemma drawTables_ids (rnd : list nat) (players : list Player) (numberOfTables : Z) :
  players <> [] ->
  table_id <$> drawTables rnd players numberOfTables
  = (fun i : nat => Z.of_nat i + 1) <$> seq 0 (Z.to_nat (safeNumTables numberOfTables)).
Proof.
  intros Hne. unfold drawTables. rewrite decide_False by (by destruct players).
  apply (StronglySorted_unique Z.le).
  - apply sort_by_table_id_sorted.
  - apply ascending_ids.
  - rewrite sort_by_perm, table_ids_foldl_seatNonDealer.
    unfold dealersSeated. rewrite table_ids_foldl_seatDealer.
    by rewrite emptyTables_ids.
Qed.

(** X2: the shape of a draw. An empty roster gives no table. Otherwise the
    tables come back with the ids 1, 2, ..., n in this order, where n is the
    requested number clamped to the range 1..3. *)
Theorem drawTables_shape (rnd : list nat) (players : list Player) (numberOfTables : Z) :
  (players = [] -> drawTables rnd players numberOfTables = [])
  /\ (players <> [] ->
      table_id <$> drawTables rnd players numberOfTables
      = (fun i : nat => Z.of_nat i + 1)
          <$> seq 0 (Z.to_nat (safeNumTables numberOfTables))
      /\ Z.of_nat (length (drawTables rnd players numberOfTables))
         = safeNumTables numberOfTables
      /\ 1 <= safeNumTables numberOfTables <= 3).
Proof.
  split; [by intros -> |]. intros Hne.
  pose proof (drawTables_ids rnd players numberOfTables Hne) as Hids.
  split; [exact Hids |]. split; [| unfold safeNumTables; lia].
  rewrite <- (length_fmap table_id), Hids, length_fmap, length_seq.
  unfold safeNumTables. lia.
Qed.

Lemma roundRobin_balanced (r : nat) (tables : list Table) :
  roundRobin r tables -> balanced tables.
Proof.
  intros [c Hc] t1 t2 [j1 H1]%list_elem_of_lookup [j2 H2]%list_elem_of_lookup.
  rewrite (Hc _ _ H1), (Hc _ _ H2). repeat case_decide; lia.
Qed.

Lemma push_player_size (x : string) (t : Table) :
  table_size (push_player x t) = table_size t + 1.
Proof. unfold table_size, push_player. cbn. rewrite length_app. cbn. lia. Qed.

Lemma next_index (s : nat) (n : Z) :
  1 <= n ->
  Z.to_nat (Z.of_nat (S s) mod n)
  = if decide (Z.of_nat (Z.to_nat (Z.of_nat s mod n)) + 1 < n)
    then S (Z.to_nat (Z.of_nat s mod n)) else O.
Proof.
  intros Hn. pose proof (Z.mod_pos_bound (Z.of_nat s) n ltac:(lia)) as Hm.
  pose proof (Z.div_mod (Z.of_nat s) n ltac:(lia)) as Hdiv.
  rewrite Z2Nat.id by lia. case_decide as Hlt.
  - rewrite <- (Z.mod_unique (Z.of_nat (S s)) n (Z.of_nat s / n)
                  (Z.of_nat s mod n + 1)); [lia | lia | lia].
  - rewrite <- (Z.mod_unique (Z.of_nat (S s)) n (Z.of_nat s / n + 1) 0);
      [lia | lia | lia].
Qed.

Lemma seatDealer_roundRobin (n : Z) (s : nat) (d : Player) (tables : list Table) :
  1 <= n -> length tables = Z.to_nat n ->
  roundRobin (Z.to_nat (Z.of_nat s mod n)) tables ->
  roundRobin (Z.to_nat (Z.of_nat (S s) mod n)) (seatDealer n tables (s, d)).
Proof.
  intros Hn Hlen [c Hc].
  pose proof (Z.mod_pos_bound (Z.of_nat s) n ltac:(lia)) as Hm.
  rewrite next_index by done. unfold seatDealer. cbn [fst snd].
  set (r := Z.to_nat (Z.of_nat s mod n)) in *.
  case_decide as Hlt.
  - exists c. intros j t. rewrite list_lookup_alter.
    case_decide as Hj.
    + subst j. destruct (tables !! r) as [t0 |] eqn:Ht0; [| done].
      cbn. intros [= <-]. rewrite push_player_size, (Hc _ _ Ht0).
      repeat case_decide; lia.
    + intros Ht. rewrite (Hc _ _ Ht). repeat case_decide; lia.
  - exists (c + 1). intros j t. rewrite list_lookup_alter.
    case_decide as Hj.
    + subst j. destruct (tables !! r) as [t0 |] eqn:Ht0; [| done].
      cbn. intros [= <-]. rewrite push_player_size, (Hc _ _ Ht0).
      repeat case_decide; lia.
    + intros Ht. rewrite (Hc _ _ Ht).
      apply lookup_lt_Some in Ht. repeat case_decide; lia.
Qed.

Lemma foldl_seatDealer_roundRobin (n : Z) (ds : list Player) (s : nat)
    (tables : list Table) :
  1 <= n -> length tables = Z.to_nat n ->
  roundRobin (Z.to_nat (Z.of_nat s mod n)) tables ->
  exists r, roundRobin r
    (foldl (seatDealer n) tables (imap (fun i x => ((s + i)%nat, x)) ds)).
Proof.
  intros Hn. revert s tables.
  induction ds as [| d ds IH]; intros s tables Hlen Hrr; [by eexists |].
  rewrite imap_cons. cbn [foldl]. rewrite Nat.add_0_r.
  rewrite (imap_ext _ (fun i x => ((S s + i)%nat, x)))
    by (intros; cbn; f_equal; lia).
  apply IH.
  - unfold seatDealer. by rewrite length_alter.
  - by apply seatDealer_roundRobin.
Qed.

Lemma dealersSeated_balanced (players : list Player) (numberOfTables : Z) :
  balanced (dealersSeated players numberOfTables).
Proof.
  unfold dealersSeated.
  destruct (foldl_seatDealer_roundRobin (Z.max 1 (Z.min 3 numberOfTables))
              (filter (fun p => isDealer p = true) players) 0
              (emptyTables (Z.max 1 (Z.min 3 numberOfTables)))) as [r Hr].
  - lia.
  - apply emptyTables_length.
  - exists 0. intros j t Ht.
    rewrite (emptyTables_size _ t) by (by eapply list_elem_of_lookup_2).
    rewrite Z.mod_0_l by lia. by rewrite decide_False by lia.
  - by eapply roundRobin_balanced.
Qed.

Lemma drawTables_even (rnd : list nat) (players : list Player) (numberOfTables : Z) :
  balanced (drawTables rnd players numberOfTables).
Proof.
  unfold drawTables. case_decide; [by intros ? ? ?%elem_of_nil |].
  intros t1 t2. rewrite !sort_by_perm. revert t1 t2.
  apply foldl_seatNonDealer_balanced, dealersSeated_balanced.
Qed.

(** X3: with or without dealers on the roster, a draw seats every player
    once (the seats are a permutation of the roster's ids) and the sizes of
    any two tables differ by at most 1: the dealers are dealt round the
    tables in turn, and each of the others goes to a table with the fewest
    players. *)
Theorem drawTables_seats_everyone_evenly (rnd : list nat) (players : list Player)
    (numberOfTables : Z) :
  let drawn := drawTables rnd players numberOfTables in
  seats drawn ≡ₚ id <$> players
  /\ forall t1 t2, t1 ∈ drawn -> t2 ∈ drawn ->
       Z.abs (table_size t1 - table_size t2) <= 1.
Proof.
  intros drawn. split; [apply drawTables_seats |].
  intros t1 t2 H1 H2.
  pose proof (drawTables_even rnd players numberOfTables t1 t2 H1 H2).
  pose proof (drawTables_even rnd players numberOfTables t2 t1 H2 H1). lia.
Qed.

(** * Where the dealers sit *)

Lemma foldl_seatDealer_players (n : Z) (entries : list (nat * Player))
    (tables : list Table) (j : nat) :
  table_players <$> foldl (seatDealer n) tables entries !! j
  = (fun t => table_players t ++ dealersAt n j entries) <$> tables !! j.
Proof.
  revert tables. induction entries as [| [i d] entries IH]; intros tables.
  - cbn. destruct (tables !! j); cbn; [| done]. by rewrite app_nil_r.
  - cbn [foldl]. rewrite IH. unfold seatDealer. cbn [fst snd].
    rewrite list_lookup_alter. unfold dealersAt. rewrite filter_cons. cbn [fst snd].
    destruct (decide (Z.to_nat (Z.of_nat i mod n) = j)) as [-> | Hne].
    + destruct (tables !! _); cbn; [| done].
      by rewrite <- (assoc_L (++)).
    + done.
Qed.

Lemma dealersAt_first (n : Z) (ds : list Player) (j : nat) (d : Player) (s : nat) :
  0 < n -> (Z.of_nat s + Z.of_nat j < n) -> ds !! j = Some d ->
  head (dealersAt n (s + j) (imap (fun i x => ((s + i)%nat, x)) ds)) = Some (id d).
Proof.
  intros Hn. revert j s. induction ds as [| d0 ds IH]; intros j s Hj Hd; [done |].
  rewrite imap_cons. unfold dealersAt. rewrite filter_cons. cbn [fst snd].
  rewrite Nat.add_0_r, Z.mod_small, Nat2Z.id by lia.
  destruct j as [| j].
  - cbn in Hd. injection Hd as ->. rewrite decide_True by lia. done.
  - rewrite decide_False by lia. cbn in Hd.
    rewrite (imap_ext _ (fun i x => ((S s + i)%nat, x)))
      by (intros; cbn; f_equal; lia).
    replace (s + S j)%nat with (S s + j)%nat by lia.
    apply (IH j (S s)); [lia | done].
Qed.

Lemma extendsTables_refl (tables : list Table) : extendsTables tables tables.
Proof. intros t Ht. by exists t. Qed.

Lemma seatNonDealer_extends (tables0 tables : list Table) (p : Player) :
  extendsTables tables0 tables -> extendsTables tables0 (seatNonDealer tables p).
Proof.
  intros Hext. unfold seatNonDealer.
  pose proof (sort_by_perm table_size tables) as Hp.
  destruct (sort_by table_size tables) as [| t rest];
    [by intros ? ?%elem_of_nil |].
  intros t' [-> | Hin]%elem_of_cons.
  - destruct (Hext t) as (t0 & H0 & Hid & Hpre); [rewrite <- Hp; by left |].
    exists t0. repeat split; [done | done |]. cbn.
    by apply prefix_app_r.
  - apply Hext. rewrite <- Hp. by right.
Qed.

Lemma foldl_seatNonDealer_extends (ps : list Player) (tables0 tables : list Table) :
  extendsTables tables0 tables ->
  extendsTables tables0 (foldl seatNonDealer tables ps).
Proof.
  revert tables. induction ps as [| p ps IH]; intros tables Hext; [done |].
  cbn [foldl]. by apply IH, seatNonDealer_extends.
Qed.

Lemma dealersSeated_lookup (players : list Player) (numberOfTables : Z)
    (j : nat) (t0 : Table) :
  dealersSeated players numberOfTables !! j = Some t0 ->
  table_id t0 = Z.of_nat j + 1
  /\ table_players t0
     = dealersAt (safeNumTables numberOfTables) j (imap pair (dealersOf players)).
Proof.
  intros Ht0. split.
  - assert (Hid : (table_id <$> dealersSeated players numberOfTables) !! j
                  = Some (table_id t0)) by (by rewrite list_lookup_fmap, Ht0).
    unfold dealersSeated in Hid.
    rewrite table_ids_foldl_seatDealer, emptyTables_ids in Hid.
    rewrite list_lookup_fmap in Hid.
    destruct (seq 0 _ !! j) as [i |] eqn:Hi; [| done].
    apply lookup_seq in Hi as [-> _]. cbn in Hid. congruence.
  - pose proof (foldl_seatDealer_players (safeNumTables numberOfTables)
                  (imap pair (dealersOf players))
                  (emptyTables (safeNumTables numberOfTables)) j) as Hpl.
    fold (dealersSeated players numberOfTables) in Hpl.
    change (foldl _ _ _) with (dealersSeated players numberOfTables) in Hpl.
    rewrite Ht0 in Hpl. cbn in Hpl.
    destruct (emptyTables _ !! j) as [e |] eqn:He; [| done].
    cbn in Hpl. injection Hpl as ->.
    unfold emptyTables in He. rewrite list_lookup_fmap in He.
    destruct (seq 0 _ !! j); [| done]. cbn in He. by injection He as <-.
Qed.

(** X4: where the dealers sit. The table at position [j] of a draw has id
    [j + 1], and its list of players begins with the dealers whose place [k]
    among the roster's dealers has [k mod n = j], in the order of the
    roster: they were seated before any other player. So the dealer at
    place [j], when there is one, is the first player of table [j + 1]. *)
Theorem dealers_sit_first (rnd : list nat) (players : list Player)
    (numberOfTables : Z) (j : nat) (t : Table) :
  drawTables rnd players numberOfTables !! j = Some t ->
  table_id t = Z.of_nat j + 1
  /\ dealersAt (safeNumTables numberOfTables) j (imap pair (dealersOf players))
     `prefix_of` table_players t
  /\ forall d, dealersOf players !! j = Some d ->
       head (table_players t) = Some (id d).
Proof.
  intros Ht.
  assert (Hne : players <> []) by (by intros ->).
  pose proof (drawTables_ids rnd players numberOfTables Hne) as Hids.
  assert (Hlen : Z.of_nat (length (drawTables rnd players numberOfTables))
                 = safeNumTables numberOfTables).
  { rewrite <- (length_fmap table_id), Hids, length_fmap, length_seq.
    unfold safeNumTables. lia. }
  assert (Hid : table_id t = Z.of_nat j + 1).
  { assert (Hl : (table_id <$> drawTables rnd players numberOfTables) !! j
                 = Some (table_id t)) by (by rewrite list_lookup_fmap, Ht).
    rewrite Hids, list_lookup_fmap in Hl.
    destruct (seq 0 _ !! j) as [i |] eqn:Hi; [| done].
    apply lookup_seq in Hi as [-> _]. cbn in Hl. congruence. }
  assert (Hext : extendsTables (dealersSeated players numberOfTables)
                   (drawTables rnd players numberOfTables)).
  { unfold drawTables. rewrite decide_False by (by destruct players).
    intros t'. rewrite sort_by_perm. revert t'.
    apply foldl_seatNonDealer_extends, extendsTables_refl. }
  destruct (Hext t) as (t0 & [j0 Hj0]%list_elem_of_lookup & Hid0 & Hpre);
    [by eapply list_elem_of_lookup_2 |].
  destruct (dealersSeated_lookup _ _ _ _ Hj0) as [Hid0' Hpl].
  assert (j0 = j) by lia. subst j0. rewrite Hpl in Hpre.
  split; [done |]. split; [done |].
  intros d Hd.
  assert (Hj : Z.of_nat j < safeNumTables numberOfTables).
  { apply lookup_lt_Some in Ht. lia. }
  pose proof (dealersAt_first (safeNumTables numberOfTables) (dealersOf players)
                j d 0 ltac:(lia) ltac:(lia) Hd) as Hhead.
  cbn [Nat.add] in Hhead.
  rewrite (imap_ext _ pair) in Hhead by done.
  destruct Hpre as [rest ->].
  destruct (dealersAt _ _ _); [done |]. done.
Qed.

Lemma dealers_sit_first_witness :
  drawTables [] dealerRoster 2 !! 1%nat
  = Some {| table_id := 2; table_players := ["4"; "3"; "1"] |}
  /\ dealersAt (safeNumTables 2) 1 (imap pair (dealersOf dealerRoster))
     `prefix_of` ["4"; "3"; "1"].
Proof.
  assert (Hl : drawTables [] dealerRoster 2 !! 1%nat
               = Some {| table_id := 2; table_players := ["4"; "3"; "1"] |})
    by reflexivity.
  split; [exact Hl |].
  exact (proj1 (proj2 (dealers_sit_first [] dealerRoster 2 1 _ Hl))).
Defined.

(** * Balances of the settlement *)

Section Balances.

Local Open Scope Q_scope.

Lemma sumQ_cons (x : Q) (l : list Q) : sumQ (x :: l) = x + sumQ l.
Proof. reflexivity. Qed.

Lemma gross_sum (config : FinancialConfig Q) (sessions : list PlayerSession) (g : Q) :
  fold_left (addSession config) sessions g
  == g + sumQ (sessionCost config <$> sessions).
Proof.
  revert g. induction sessions as [| s l IH]; intros g.
  - cbn. ring.
  - cbn [fold_left fmap list_fmap]. rewrite IH, sumQ_cons.
    unfold addSession, sessionCost. cbn. unfold of_int. cbn.
    change (Exact.lit (buyIns s) 0) with (inject_Z (buyIns s)).
    change (Exact.lit (rebuys s) 0) with (inject_Z (rebuys s)).
    change (Exact.lit (addOns s) 0) with (inject_Z (addOns s)).
    ring.
Qed.

Lemma totalPaid_column (config : FinancialConfig Q) (sessions : list PlayerSession) :
  totalPaid <$> playerBalances (calculateFinancials sessions config)
  = sessionCost config <$> sessions.
Proof.
  unfold calculateFinancials. cbn [playerBalances].
  change (map ?f ?l) with (f <$> l).
  rewrite <- list_fmap_compose. by apply list_fmap_ext.
Qed.

(** X5: the balances of a settlement follow the sessions. There is one
    balance for each session, in the same order and with the same
    [playerId]; what the players paid adds up to the gross total; and each
    net balance is the prize received minus what was paid minus the share of
    the barbecue. *)
Theorem balances_follow_sessions (sessions : list PlayerSession)
    (config : FinancialConfig Q) :
  let r := calculateFinancials sessions config in
  pb_playerId <$> playerBalances r = playerId <$> sessions
  /\ sumQ (totalPaid <$> playerBalances r) == grossTotal r
  /\ Forall (fun b => netBalance b == prizeReceived b - totalPaid b - bbqShare b)
       (playerBalances r).
Proof.
  intros r. split; [| split].
  - subst r. unfold calculateFinancials. cbn [playerBalances].
    change (map ?f ?l) with (f <$> l).
    rewrite <- list_fmap_compose. by apply list_fmap_ext.
  - subst r. rewrite totalPaid_column.
    unfold calculateFinancials. cbn [grossTotal].
    rewrite gross_sum. change (of_int 0) with 0. ring.
  - subst r. unfold calculateFinancials. cbn [playerBalances].
    change (map ?f ?l) with (f <$> l).
    apply Forall_fmap, Forall_true. intros s. cbn. reflexivity.
Qed.

End Balances.

Section Prizes.

Local Open Scope Q_scope.

Lemma sumQ_const (x : Q) {A : Type} (l : list A) :
  sumQ ((fun _ => x) <$> l) == inject_Z (Z.of_nat (length l)) * x.
Proof.
  induction l as [| a l IH].
  - cbn. ring.
  - rewrite fmap_cons, sumQ_cons, IH. cbn [length].
    rewrite Nat2Z.inj_succ, <- Z.add_1_r, inject_Z_plus. ring.
Qed.

(** X6: the barbecue is split evenly and in full. When there is at least one
    session, every balance carries [bbqCost / sessions.length], and the
    shares add up to [bbqCost]. *)
Theorem shared_cost_split (sessions : list PlayerSession) (config : FinancialConfig Q) :
  sessions <> [] ->
  let r := calculateFinancials sessions config in
  Forall (fun b => bbqShare b
                   == bbqCost config / inject_Z (Z.of_nat (length sessions)))
    (playerBalances r)
  /\ sumQ (bbqShare <$> playerBalances r) == bbqCost config.
Proof.
  intros Hne r.
  assert (Hlen : (0 < Z.of_nat (length sessions))%Z) by (destruct sessions; [done | cbn; lia]).
  assert (Hcol : bbqShare <$> playerBalances r
                 = (fun _ => bbqCost config / inject_Z (Z.of_nat (length sessions)))
                     <$> sessions).
  { subst r. unfold calculateFinancials. cbn [playerBalances].
    change (map ?f ?l) with (f <$> l).
    rewrite <- list_fmap_compose. apply list_fmap_ext. intros i s _. cbn.
    destruct (Z.ltb_spec 0 (Z.of_nat (length sessions))); [done | lia]. }
  split.
  - apply Forall_forall. intros b Hb.
    assert (Hin : bbqShare b ∈ bbqShare <$> playerBalances r)
      by (by apply list_elem_of_fmap_2).
    rewrite Hcol in Hin. apply list_elem_of_fmap in Hin as (s & -> & _). reflexivity.
  - rewrite Hcol, sumQ_const. field.
    change 0 with (inject_Z 0). rewrite inject_Z_injective. lia.
Qed.

Lemma shared_cost_split_witness :
  fourSessions <> []
  /\ sumQ (bbqShare <$> playerBalances (calculateFinancials fourSessions config50))
     == 40.
Proof.
  assert (Hne : fourSessions <> []) by discriminate.
  split; [exact Hne |].
  exact (proj2 (shared_cost_split fourSessions config50 Hne)).
Defined.

Lemma prize_column (config : FinancialConfig Q) (sessions : list PlayerSession) :
  prizeReceived <$> playerBalances (calculateFinancials sessions config)
  = prizeFor (prizes (calculateFinancials sessions config)) <$> sessions.
Proof.
  unfold calculateFinancials. cbn [playerBalances prizes].
  change (map ?f ?l) with (f <$> l).
  rewrite <- list_fmap_compose. apply list_fmap_ext. intros i s _. cbn.
  unfold prizeFor. cbn. repeat case_decide; try congruence; reflexivity.
Qed.

Lemma prizeFor_sum (pr : Prizes Q) (sessions : list PlayerSession) :
  sumQ (prizeFor pr <$> sessions)
  == inject_Z (holders 1 sessions) * first pr
     + inject_Z (holders 2 sessions) * second pr
     + inject_Z (holders 3 sessions) * third pr.
Proof.
  unfold holders. induction sessions as [| s l IH].
  - cbn. ring.
  - rewrite fmap_cons, sumQ_cons, IH. rewrite !filter_cons. unfold prizeFor.
    repeat case_decide; try congruence; cbn [length];
      rewrite ?Nat2Z.inj_succ, <- ?Z.add_1_r, ?inject_Z_plus; ring.
Qed.

(** X7: the prizes handed out. A prize is paid to every session that holds
    its rank: the prizes received add up to the first prize times the number
    of sessions of rank 1, plus the same for ranks 2 and 3 (nothing checks
    that a rank has exactly one holder). A session whose rank is none of 1,
    2, 3 receives nothing. *)
Theorem prizes_paid_per_holder (sessions : list PlayerSession)
    (config : FinancialConfig Q) :
  let r := calculateFinancials sessions config in
  sumQ (prizeReceived <$> playerBalances r)
  == inject_Z (holders 1 sessions) * first (prizes r)
     + inject_Z (holders 2 sessions) * second (prizes r)
     + inject_Z (holders 3 sessions) * third (prizes r)
  /\ Forall2 (fun s b => (rank s <> Some 1%Z /\ rank s <> Some 2%Z
                          /\ rank s <> Some 3%Z) -> prizeReceived b == 0)
       sessions (playerBalances r).
Proof.
  intros r. split.
  - subst r. rewrite prize_column. apply prizeFor_sum.
  - subst r. unfold calculateFinancials. cbn [playerBalances].
    change (map ?f ?l) with (f <$> l).
    apply Forall2_fmap_r, Forall2_same_length_lookup. split; [done |].
    intros i s s' Hs Hs' (H1 & H2 & H3). simplify_eq. cbn.
    rewrite !decide_False by done. reflexivity.
Qed.

(** X8: the shares of the pot. The net prize pool is 80% of the gross total
    and the main event pot 5%; the rounding adjustment lies in [[-15, 15)];
    and the admin tax is 15% of the gross total plus the adjustment, which
    is how it can end below zero ([adminTax_negative]). *)
Theorem rounding_adjustment_bounded (sessions : list PlayerSession)
    (config : FinancialConfig Q) :
  let r := calculateFinancials sessions config in
  netPrizePool r == (80 # 100) * grossTotal r
  /\ mainEventPot r == (5 # 100) * grossTotal r
  /\ -15 <= roundingAdjustment r /\ roundingAdjustment r < 15
  /\ adminTax r == (15 # 100) * grossTotal r + roundingAdjustment r.
Proof.
  intros r. subst r. unfold calculateFinancials.
  cbn [netPrizePool mainEventPot roundingAdjustment adminTax grossTotal first second third].
  generalize (fold_left (addSession config) sessions (of_int 0)). intros g.
  cbn -[smartRound].
  change (Exact.lit 15 2) with (15 # 100). change (Exact.lit 5 2) with (5 # 100).
  change (Exact.lit 50 2) with (50 # 100). change (Exact.lit 30 2) with (30 # 100).
  change (Exact.lit 20 2) with (20 # 100).
  set (net := g - g * (15 # 100) - g * (5 # 100)).
  pose proof (smartRound_bounds (net * (50 # 100))) as [? ?].
  pose proof (smartRound_bounds (net * (30 # 100))) as [? ?].
  pose proof (smartRound_bounds (net * (20 # 100))) as [? ?].
  assert (Hnet : net == (80 # 100) * g) by (unfold net; ring).
  repeat split; try lra; ring.
Qed.

(** The admin tax can come out negative: three buy-ins of 7 give a gross of
    21 and a net pool of 16.8, of which 20 is paid out once the shares are
    rounded; the tax, 3.15 before the adjustment, ends at -0.05. *)
Example adminTax_negative :
  adminTax (calculateFinancials threeSessions config7) == - (5 # 100).
Proof. by vm_compute. Qed.

End Prizes.

(** * Score and position *)

Section Points.

Local Open Scope Q_scope.

Lemma calculatePoints_Q (n p : Q) :
  0 < p -> calculatePoints n p == (n + 1) - p + n / p.
Proof.
  intros Hp. unfold calculatePoints. cbn.
  destruct (Qle_bool p (Exact.lit 0 0)) eqn:Hle.
  - apply Qle_bool_iff in Hle. change (Exact.lit 0 0) with 0 in Hle. lra.
  - change (Exact.lit 1 0) with 1. reflexivity.
Qed.

(** X9: the score rewards the position. For a round of [n >= 0] players and
    positions [1 <= p < q], position [q] earns strictly less than position
    [p]; the winner earns [2 * n], and no position earns more. *)
Theorem calculatePoints_rewards_rank (n p q : Q) :
  0 <= n -> 1 <= p -> p < q ->
  calculatePoints n q < calculatePoints n p
  /\ calculatePoints n 1 == 2 * n
  /\ calculatePoints n p <= 2 * n.
Proof.
  intros Hn Hp Hpq.
  rewrite !calculatePoints_Q by lra.
  assert (Hnp : n / p * p == n) by (field; lra).
  assert (Hnq : n / q * q == n) by (field; lra).
  assert (Hdp : 0 <= n / p).
  { apply Qle_shift_div_l; lra. }
  assert (Hdq : 0 <= n / q).
  { apply Qle_shift_div_l; lra. }
  set (a := n / p) in *. set (b := n / q) in *.
  assert (Hba : b <= a).
  { destruct (Qlt_le_dec a b) as [Hlt | Hle]; [| done]. exfalso.
    assert (a * p < b * q).
    { apply Qle_lt_trans with (b * p).
      - apply Qmult_le_compat_r; lra.
      - rewrite (Qmult_comm b p), (Qmult_comm b q).
        apply Qmult_lt_compat_r; lra. }
    lra. }
  assert (Han : a <= n).
  { assert (a * 1 <= a * p).
    { rewrite (Qmult_comm a 1), (Qmult_comm a p).
      apply Qmult_le_compat_r; lra. }
    lra. }
  split; [lra |]. split; [| lra].
  field.
Qed.

Lemma calculatePoints_rewards_rank_witness :
  0 <= 25 /\ 1 <= 1 /\ 1 < 3
  /\ calculatePoints (num := Q) 25 3 < calculatePoints (num := Q) 25 1.
Proof.
  assert (H0 : 0 <= 25) by (vm_compute; discriminate).
  assert (H1 : 1 <= 1) by (vm_compute; discriminate).
  assert (H2 : 1 < 3) by reflexivity.
  split; [exact H0 |]. split; [exact H1 |]. split; [exact H2 |].
  exact (proj1 (calculatePoints_rewards_rank 25 1 3 H0 H1 H2)).
Defined.

End Points.

(** * Phases *)

Lemma AppState_eq (a b : AppState) :
  activeTab a = activeTab b -> players a = players b ->
  checkedInIds a = checkedInIds b -> numTables a = numTables b ->
  gameSessions a = gameSessions b -> tables a = tables b ->
  gamePhase a = gamePhase b -> a = b.
Proof. destruct a, b; cbn; intros; by subst. Qed.

(** X10: the phases only move forward. [advancePhase] goes one step from
    rebuys to add-ons to freezeout, and leaves a round in freezeout as it
    is; two calls reach freezeout from any phase. Sessions, tables, roster
    and check-ins are not touched. *)
Theorem advancePhase_forward_only (st : AppState) :
  (phaseIndex (gamePhase st) <= phaseIndex (gamePhase (advancePhase st))
   <= S (phaseIndex (gamePhase st)))%nat
  /\ (gamePhase st <> FREEZEOUT ->
      phaseIndex (gamePhase (advancePhase st)) = S (phaseIndex (gamePhase st)))
  /\ (gamePhase st = FREEZEOUT -> advancePhase st = st)
  /\ gamePhase (advancePhase (advancePhase st)) = FREEZEOUT
  /\ gameSessions (advancePhase st) = gameSessions st
  /\ tables (advancePhase st) = tables st
  /\ players (advancePhase st) = players st
  /\ checkedInIds (advancePhase st) = checkedInIds st.
Proof.
  unfold advancePhase.
  destruct (gamePhase st) eqn:Hphase; cbn; rewrite ?Hphase; cbn;
    repeat split; (done || lia).
Qed.

(** * Add-on for all *)

Lemma addonAll_idempotent (prev : list PlayerSession) :
  addonAll (addonAll prev) = addonAll prev.
Proof.
  unfold addonAll. rewrite <- list_fmap_compose. apply list_fmap_ext.
  intros i s _. cbn. destruct (decide (rank s = None)) as [Hr | Hr]; cbn.
  - by rewrite decide_True.
  - by rewrite decide_False.
Qed.

(** X11: the add-on for all. Declined, it changes nothing. Confirmed, it
    sets the add-on of every session without a rank to 1 and returns a
    session that has a rank as it is; ids, buy-ins, rebuys and ranks are
    kept. A second application changes nothing more. *)
Theorem handleAddonAll_active_only (confirmed : bool) (st : AppState) :
  handleAddonAll false st = st
  /\ playerId <$> gameSessions (handleAddonAll confirmed st)
     = playerId <$> gameSessions st
  /\ Forall2 (fun s s' =>
       buyIns s' = buyIns s /\ rebuys s' = rebuys s /\ rank s' = rank s
       /\ (rank s <> None -> s' = s)
       /\ (rank s = None -> confirmed = true -> addOns s' = 1))
       (gameSessions st) (gameSessions (handleAddonAll confirmed st))
  /\ handleAddonAll confirmed (handleAddonAll confirmed st)
     = handleAddonAll confirmed st.
Proof.
  split; [done |]. destruct confirmed; cbn.
  - split; [| split].
    + unfold addonAll. rewrite <- list_fmap_compose. apply list_fmap_ext.
      intros i s _. cbn. by case_decide.
    + unfold addonAll. apply Forall2_fmap_r, Forall2_same_length_lookup.
      split; [done |]. intros i s s' Hs Hs'. simplify_eq. simpl.
      destruct (decide _) as [Hr | Hr]; cbn; repeat split; try done;
        intros; congruence.
    + unfold setGameSessions. cbn. by rewrite addonAll_idempotent.
  - split; [done |]. split; [| done].
    apply Forall2_same_length_lookup. split; [done |].
    intros i s s' Hs Hs'. simplify_eq. repeat split; done.
Qed.

(** * Check-in and dealer flags *)

(** X12: the check-in toggle flips the membership of the one id it is given:
    that of every other id is kept, the number of checked-in players goes
    up or down by one, and a second toggle restores the state. *)
Theorem handleCheckInToggle_flips (pid : string) (st : AppState) :
  (pid ∈ checkedInIds (handleCheckInToggle pid st) <-> pid ∉ checkedInIds st)
  /\ (forall other, other <> pid ->
        other ∈ checkedInIds (handleCheckInToggle pid st)
        <-> other ∈ checkedInIds st)
  /\ (pid ∈ checkedInIds st ->
      S (size (checkedInIds (handleCheckInToggle pid st))) = size (checkedInIds st))
  /\ (pid ∉ checkedInIds st ->
      size (checkedInIds (handleCheckInToggle pid st)) = S (size (checkedInIds st)))
  /\ handleCheckInToggle pid (handleCheckInToggle pid st) = st.
Proof.
  unfold handleCheckInToggle. cbn.
  destruct (decide (pid ∈ checkedInIds st)) as [Hin | Hout].
  - split; [rewrite elem_of_difference, elem_of_singleton; tauto |].
    split; [intros other Hother; rewrite elem_of_difference, elem_of_singleton; tauto |].
    split; [| split; [done |]].
    + intros _. rewrite size_difference by (by apply singleton_subseteq_l).
      rewrite size_singleton.
      assert (size (checkedInIds st) ≠ 0%nat).
      { apply size_non_empty_iff. by apply (non_empty_inhabited pid). }
      lia.
    + rewrite decide_False
        by (rewrite elem_of_difference, elem_of_singleton; tauto).
      apply AppState_eq; cbn; try done.
      apply set_eq. intros x. rewrite elem_of_union, elem_of_difference, elem_of_singleton.
      destruct (decide (x = pid)) as [-> | Hne]; intuition auto.
  - split; [rewrite elem_of_union, elem_of_singleton; tauto |].
    split; [intros other Hother; rewrite elem_of_union, elem_of_singleton; tauto |].
    split; [done | split].
    + intros _. rewrite size_union
        by (apply disjoint_singleton_r; exact Hout).
      rewrite size_singleton. lia.
    + rewrite decide_True by (rewrite elem_of_union, elem_of_singleton; tauto).
      apply AppState_eq; cbn; try done.
      apply set_eq. intros x. rewrite elem_of_difference, elem_of_union, elem_of_singleton.
      destruct (decide (x = pid)) as [-> | Hne]; intuition auto.
Qed.

Lemma flipDealer_twice (pid : string) (p : Player) :
  flipDealer pid (flipDealer pid p) = p.
Proof.
  unfold flipDealer. destruct (decide (id p = pid)) as [Hp | Hp]; cbn.
  - rewrite decide_True by done. cbn. rewrite negb_involutive. by destruct p.
  - by rewrite decide_False.
Qed.

(** X13: the dealer toggle. Ids and names are kept; the dealer flag of the
    players with the given id is negated and those of the others are kept;
    check-ins, sessions and tables are not touched; a second toggle
    restores the state. *)
Theorem toggleDealer_flips (pid : string) (st : AppState) :
  id <$> players (toggleDealer pid st) = id <$> players st
  /\ name <$> players (toggleDealer pid st) = name <$> players st
  /\ Forall2 (fun p p' =>
       isDealer p' = (if decide (id p = pid) then negb (isDealer p) else isDealer p))
       (players st) (players (toggleDealer pid st))
  /\ checkedInIds (toggleDealer pid st) = checkedInIds st
  /\ gameSessions (toggleDealer pid st) = gameSessions st
  /\ tables (toggleDealer pid st) = tables st
  /\ toggleDealer pid (toggleDealer pid st) = st.
Proof.
  unfold toggleDealer. cbn. repeat split.
  - rewrite <- list_fmap_compose. apply list_fmap_ext. intros i p _. cbn.
    unfold flipDealer. by case_decide.
  - rewrite <- list_fmap_compose. apply list_fmap_ext. intros i p _. cbn.
    unfold flipDealer. by case_decide.
  - apply Forall2_fmap_r, Forall2_same_length_lookup. split; [done |].
    intros i p p' Hp Hp'. simplify_eq. simpl. unfold flipDealer.
    destruct (decide _); done.
  - apply AppState_eq; cbn; try done.
    rewrite <- list_fmap_compose. rewrite <- (list_fmap_id (players st)) at 2.
    apply list_fmap_ext. intros i p _. cbn. apply flipDealer_twice.
Qed.

(** * Count adjustment *)

Lemma updateSession_ids (pid : string) (field : SessionField) (delta : Z)
    (sessions : list PlayerSession) :
  playerId <$> updateSession pid field delta sessions = playerId <$> sessions.
Proof.
  unfold updateSession. rewrite <- list_fmap_compose. apply list_fmap_ext.
  intros i s _. cbn. case_decide; [done |].
  destruct field; cbn; try done. by destruct (rank s).
Qed.

Lemma updateSession_countsOk (pid : string) (field : SessionField) (delta : Z)
    (s : PlayerSession) :
  countsOk s ->
  countsOk (if decide (playerId s ≠ pid) then s
            else match numberField field s with
                 | Some val =>
                     setField field
                       (if decide (field = K_addOns)
                        then Z.max 0 (Z.min 1 (val + delta))
                        else Z.max 0 (val + delta)) s
                 | None => s
                 end).
Proof.
  intros (Hb & Hr & Ha). case_decide; [done |].
  destruct field; cbn; unfold countsOk; cbn; try destruct (rank s); cbn;
    repeat case_decide; repeat split; lia.
Qed.

(** X14: [updateSession] keeps the counts in their ranges. The ids are
    kept; counts that were non-negative stay so; add-ons that were at most 1
    stay so; and after a call the count of the named field is non-negative
    in the sessions of the player, and in [0..1] when the field is the
    add-ons, whatever the sessions and the delta were. *)
Theorem updateSession_keeps_counts_in_range (pid : string) (field : SessionField)
    (delta : Z) (sessions : list PlayerSession) :
  playerId <$> updateSession pid field delta sessions = playerId <$> sessions
  /\ (Forall countsOk sessions ->
      Forall countsOk (updateSession pid field delta sessions))
  /\ (Forall (fun s => addOns s <= 1) sessions ->
      Forall (fun s => addOns s <= 1) (updateSession pid field delta sessions))
  /\ (forall s', s' ∈ updateSession pid field delta sessions ->
        playerId s' = pid ->
        forall v, numberField field s' = Some v -> 0 <= v)
  /\ (forall s', s' ∈ updateSession pid K_addOns delta sessions ->
        playerId s' = pid -> 0 <= addOns s' <= 1).
Proof.
  split; [apply updateSession_ids |]. split; [| split; [| split]].
  - intros Hok. unfold updateSession. apply Forall_fmap.
    eapply Forall_impl; [exact Hok |]. intros s Hs. cbn.
    by apply updateSession_countsOk.
  - intros Hok. unfold updateSession. apply Forall_fmap.
    eapply Forall_impl; [exact Hok |]. intros s Hs. cbn.
    case_decide; [done |].
    destruct field; cbn; try destruct (rank s); cbn; repeat case_decide;
      try done; lia.
  - intros s'. unfold updateSession.
    intros (s & -> & _)%list_elem_of_fmap. cbn.
    case_decide as Hne; [intros; congruence |]. intros _ v.
    destruct field; cbn; try destruct (rank s) eqn:Hrk; cbn; repeat case_decide;
      try done; intros Hv; simplify_eq; lia || congruence.
  - intros s'. unfold updateSession.
    intros (s & -> & _)%list_elem_of_fmap. cbn.
    case_decide as Hne; [intros; congruence |]. intros _. cbn.
    case_decide; [lia | done].
Qed.

(** X15: a rebuy can be taken back. With the rebuy counts non-negative,
    adding [delta >= 0] rebuys and then removing them restores the
    sessions. The other way round is not a round trip: removing first is
    clamped at zero, so a player with fewer than [delta] rebuys ends with
    [delta]. *)
Theorem rebuy_then_undo (pid : string) (delta : Z) (sessions : list PlayerSession) :
  0 <= delta ->
  Forall (fun s => 0 <= rebuys s) sessions ->
  updateSession pid K_rebuys (- delta) (updateSession pid K_rebuys delta sessions)
  = sessions
  /\ forall i s, sessions !! i = Some s -> playerId s = pid -> rebuys s < delta ->
       rebuys <$> updateSession pid K_rebuys delta
                    (updateSession pid K_rebuys (- delta) sessions) !! i
       = Some delta.
Proof.
  intros Hd Hok. split.
  - unfold updateSession. rewrite <- list_fmap_compose.
    rewrite <- (list_fmap_id sessions) at 2.
    apply list_fmap_ext. intros i s Hs. cbn.
    rewrite Forall_forall in Hok.
    specialize (Hok s (list_elem_of_lookup_2 _ _ _ Hs)).
    destruct (decide (playerId s ≠ pid)) as [Hne | He]; cbn.
    + by rewrite decide_True.
    + rewrite decide_False by done. cbn.
      rewrite !(decide_False (P := K_rebuys = K_addOns)) by done.
      destruct s; cbn in *. f_equal. lia.
  - intros i s Hs Hp Hlt. unfold updateSession.
    rewrite <- list_fmap_compose, !list_lookup_fmap, Hs. cbn.
    rewrite Forall_forall in Hok.
    specialize (Hok s (list_elem_of_lookup_2 _ _ _ Hs)).
    destruct (decide (playerId s ≠ pid)) as [Hne | _]; [done |]. cbn.
    rewrite decide_False by (intros Hne; apply Hne; exact Hp). cbn.
    rewrite !(decide_False (P := K_rebuys = K_addOns)) by done.
    f_equal. lia.
Qed.

Lemma rebuy_then_undo_witness :
  0 <= 1
  /\ Forall (fun s => 0 <= rebuys s) twoSessions
  /\ updateSession "1" K_rebuys (- 1) (updateSession "1" K_rebuys 1 twoSessions)
     = twoSessions.
Proof.
  assert (Hd : 0 <= 1) by lia.
  assert (Hok : Forall (fun s => 0 <= rebuys s) twoSessions)
    by (repeat constructor; cbn; lia).
  split; [exact Hd |]. split; [exact Hok |].
  exact (proj1 (rebuy_then_undo "1" 1 twoSessions Hd Hok)).
Defined.

(** * Rank override and the counts *)

Lemma setRank_session (pid : string) (r : Z) (s : PlayerSession) :
  let s' := if decide (playerId s = pid) then withRank (Some r) s
            else if decide (rank s = Some r) then withRank None s else s in
  playerId s' = playerId s /\ counts s' = counts s.
Proof. cbn. repeat case_decide; done. Qed.

(** X16: [setRank] touches ranks only. Ids and counts are kept; a session
    of another player that does not hold the rank is returned as it is;
    afterwards a session holds the rank exactly when it is a session of
    the player; and a second call with the same arguments changes nothing
    more. *)
Theorem setRank_touches_ranks_only (pid : string) (r : Z)
    (sessions : list PlayerSession) :
  playerId <$> setRank pid r sessions = playerId <$> sessions
  /\ counts <$> setRank pid r sessions = counts <$> sessions
  /\ (forall i s, sessions !! i = Some s -> playerId s <> pid ->
        rank s <> Some r -> setRank pid r sessions !! i = Some s)
  /\ (forall s', s' ∈ setRank pid r sessions ->
        rank s' = Some r <-> playerId s' = pid)
  /\ setRank pid r (setRank pid r sessions) = setRank pid r sessions.
Proof.
  split; [| split; [| split; [| split]]].
  - unfold setRank. rewrite <- list_fmap_compose. apply list_fmap_ext.
    intros i s _. cbn. repeat case_decide; done.
  - unfold setRank. rewrite <- list_fmap_compose. apply list_fmap_ext.
    intros i s _. cbn. repeat case_decide; done.
  - intros i s Hs Hp Hr. unfold setRank. rewrite list_lookup_fmap, Hs. cbn.
    by rewrite !decide_False.
  - intros s'. unfold setRank. intros (s & -> & _)%list_elem_of_fmap.
    repeat case_decide; cbn; split; intros; congruence.
  - unfold setRank. rewrite <- list_fmap_compose. apply list_fmap_ext.
    intros i s _. cbn.
    destruct (decide (playerId s = pid)) as [Hp | Hp]; cbn.
    + by rewrite decide_True.
    + destruct (decide (rank s = Some r)) as [Hr | Hr]; cbn.
      * rewrite decide_False by done. by rewrite decide_False.
      * rewrite decide_False by done. by rewrite decide_False.
Qed.

(** X17: a rank moves with the last assignment. After [setRank p r] and
    then [setRank q r] for another player [q], the sessions of [q] hold
    rank [r] and those of [p] hold no rank. *)
Theorem setRank_takes_over (p q : string) (r : Z) (sessions : list PlayerSession) :
  p <> q ->
  forall s', s' ∈ setRank q r (setRank p r sessions) ->
    (playerId s' = q -> rank s' = Some r)
    /\ (playerId s' = p -> rank s' = None).
Proof.
  intros Hpq s'. unfold setRank. rewrite <- list_fmap_compose.
  intros (s & -> & _)%list_elem_of_fmap. cbn.
  destruct (decide (playerId s = p)) as [Hp | Hp]; cbn.
  - rewrite decide_False by congruence. rewrite decide_True by done. cbn.
    split; [congruence | done].
  - destruct (decide (rank s = Some r)); cbn;
      repeat case_decide; cbn; split; intros; congruence.
Qed.

Lemma setRank_takes_over_witness :
  "1" <> "2"
  /\ forall s', s' ∈ setRank "2" 1 (setRank "1" 1 twoSessions) ->
       (playerId s' = "2" -> rank s' = Some 1)
       /\ (playerId s' = "1" -> rank s' = None).
Proof.
  assert (Hne : "1" <> "2") by discriminate.
  exact (conj Hne (setRank_takes_over "1" "2" 1 twoSessions Hne)).
Defined.

(** * Elimination, in any state *)



(** * What a started round looks like *)

Lemma startRound_fresh (rnd : list nat) (st : AppState) :
  Forall freshSession (gameSessions (startRound rnd st)).
Proof.
  rewrite startRound_sessions. apply Forall_fmap, Forall_true.
  intros p. by repeat split.
Qed.

(** X19: the round that [startRound] opens. There is one session for each
    checked-in player of the roster, in the order of the roster, with one
    buy-in, no rebuy, no add-on and no rank; the tables seat exactly the
    players of the sessions, with sizes that differ by at most 1; the phase
    is [REBUYS_OPEN] and the game tab is shown; roster and check-ins are
    kept. With distinct ids on the roster, no player has two sessions or
    two seats. *)
Theorem startRound_opens_clean_round (rnd : list nat) (st : AppState) :
  let st' := startRound rnd st in
  playerId <$> gameSessions st' = id <$> activePlayers st
  /\ Forall freshSession (gameSessions st')
  /\ (forall p, p ∈ id <$> activePlayers st -> p ∈ checkedInIds st)
  /\ seats (tables st') ≡ₚ playerId <$> gameSessions st'
  /\ (forall t1 t2, t1 ∈ tables st' -> t2 ∈ tables st' ->
        Z.abs (table_size t1 - table_size t2) <= 1)
  /\ gamePhase st' = REBUYS_OPEN /\ activeTab st' = GAME
  /\ players st' = players st /\ checkedInIds st' = checkedInIds st
  /\ (NoDup (id <$> players st) ->
      NoDup (playerId <$> gameSessions st') /\ NoDup (seats (tables st'))).
Proof.
  intros st'.
  assert (Hids : playerId <$> gameSessions st' = id <$> activePlayers st)
    by apply startRound_ids.
  pose proof (drawTables_seats rnd (activePlayers st) (numTables st)) as Hseats.
  assert (Hbal : forall t1 t2, t1 ∈ tables st' -> t2 ∈ tables st' ->
                   Z.abs (table_size t1 - table_size t2) <= 1).
  { intros t1 t2 H1 H2.
    pose proof (drawTables_even rnd (activePlayers st) (numTables st) t1 t2 H1 H2).
    pose proof (drawTables_even rnd (activePlayers st) (numTables st) t2 t1 H2 H1).
    lia. }
  split; [done |]. split.
  { subst st'. rewrite startRound_sessions. apply Forall_fmap, Forall_true.
    intros p. by repeat split. }
  split.
  { intros p (x & -> & Hx)%list_elem_of_fmap. unfold activePlayers in Hx.
    by apply list_elem_of_filter in Hx as [Hx _]. }
  split; [by rewrite Hids |]. split; [exact Hbal |].
  repeat split; try done.
  - rewrite Hids. by apply activePlayers_NoDup.
  - change (tables st') with (drawTables rnd (activePlayers st) (numTables st)).
    rewrite Hseats. by apply activePlayers_NoDup.
Qed.

Lemma sumQ_fresh (config : FinancialConfig Q) (sessions : list PlayerSession) :
  Forall freshSession sessions ->
  (sumQ (sessionCost config <$> sessions)
   == inject_Z (Z.of_nat (length sessions)) * buyInCost config)%Q.
Proof.
  induction 1 as [| s l (Hb & Hr & Ha & _) _ IH].
  - cbn. ring.
  - rewrite fmap_cons, sumQ_cons, IH. unfold sessionCost. rewrite Hb, Hr, Ha.
    cbn [length]. rewrite Nat2Z.inj_succ, <- Z.add_1_r, inject_Z_plus.
    change (inject_Z 1) with 1%Q. change (inject_Z 0) with 0%Q. ring.
Qed.

(** X20: the pot of a round that has just started is one buy-in for each
    of its players: every balance shows one buy-in paid and no prize. *)
Theorem opening_pot (rnd : list nat) (st : AppState) (config : FinancialConfig Q) :
  let r := calculateFinancials (gameSessions (startRound rnd st)) config in
  (grossTotal r
   == inject_Z (Z.of_nat (length (activePlayers st))) * buyInCost config)%Q
  /\ Forall (fun b => prizeReceived b == 0 /\ totalPaid b == buyInCost config)%Q
       (playerBalances r).
Proof.
  intros r.
  pose proof (startRound_fresh rnd st) as Hfresh.
  split.
  - subst r. unfold calculateFinancials. cbn [grossTotal].
    rewrite gross_sum, (sumQ_fresh _ _ Hfresh), startRound_sessions, length_fmap.
    change (of_int 0) with 0%Q. ring.
  - subst r. unfold calculateFinancials. cbn [playerBalances].
    change (map ?f ?l) with (f <$> l).
    apply Forall_fmap. eapply Forall_impl; [exact Hfresh |].
    intros s (Hb & Hr & Ha & Hrank). cbn. rewrite Hb, Hr, Ha, Hrank.
    rewrite !decide_False by done. split; [reflexivity |].
    change (Exact.lit 1 0) with 1%Q. change (Exact.lit 0 0) with 0%Q. ring.
Qed.

(** * Invariants of a round *)

Lemma setRank_ranksUnique (pid : string) (r : Z) (sessions : list PlayerSession) :
  NoDup (playerId <$> sessions) -> ranksUnique sessions ->
  ranksUnique (setRank pid r sessions).
Proof.
  intros Hids Huniq i j si' sj' v. rewrite !setRank_lookup.
  destruct (sessions !! i) as [si |] eqn:Hi; [| done].
  destruct (sessions !! j) as [sj |] eqn:Hj; [| done].
  cbn. intros [= <-] [= <-]. unfold evict.
  destruct (decide (playerId si = pid)) as [Hpi | Hpi];
    destruct (decide (playerId sj = pid)) as [Hpj | Hpj]; cbn.
  - intros _ _. apply (NoDup_lookup _ i j pid Hids);
      rewrite list_lookup_fmap; [rewrite Hi | rewrite Hj]; cbn; congruence.
  - intros [= <-]. case_decide; cbn; [done | congruence].
  - case_decide; cbn; [done |]. intros Hsi [= <-]. congruence.
  - repeat case_decide; cbn; try done. intros. by eapply Huniq.
Qed.

Lemma ranksUnique_same_ranks (l1 l2 : list PlayerSession) :
  rank <$> l1 = rank <$> l2 -> ranksUnique l1 -> ranksUnique l2.
Proof.
  intros Heq Huniq i j si sj v Hi Hj Hri Hrj.
  assert (H1 : (rank <$> l1) !! i = Some (Some v))
    by (by rewrite Heq, list_lookup_fmap, Hi; cbn; rewrite Hri).
  assert (H2 : (rank <$> l1) !! j = Some (Some v))
    by (by rewrite Heq, list_lookup_fmap, Hj; cbn; rewrite Hrj).
  rewrite list_lookup_fmap in H1, H2.
  destruct (l1 !! i) as [ti |] eqn:Hti; [| done].
  destruct (l1 !! j) as [tj |] eqn:Htj; [| done].
  cbn in H1, H2. eapply (Huniq i j ti tj v); congruence.
Qed.

Lemma updateSession_ranks (pid : string) (field : SessionField) (delta : Z)
    (sessions : list PlayerSession) :
  field = K_rebuys \/ field = K_addOns ->
  rank <$> updateSession pid field delta sessions = rank <$> sessions.
Proof.
  intros Hf. unfold updateSession. rewrite <- list_fmap_compose.
  apply list_fmap_ext. intros i s _. cbn. case_decide; [done |].
  by destruct Hf as [-> | ->].
Qed.

Lemma addonAll_ranks (sessions : list PlayerSession) :
  rank <$> addonAll sessions = rank <$> sessions.
Proof.
  unfold addonAll. rewrite <- list_fmap_compose. apply list_fmap_ext.
  intros i s _. cbn. by case_decide.
Qed.

Lemma addonAll_ids (sessions : list PlayerSession) :
  playerId <$> addonAll sessions = playerId <$> sessions.
Proof.
  unfold addonAll. rewrite <- list_fmap_compose. apply list_fmap_ext.
  intros i s _. cbn. by case_decide.
Qed.

Lemma setRank_ids (pid : string) (r : Z) (sessions : list PlayerSession) :
  playerId <$> setRank pid r sessions = playerId <$> sessions.
Proof.
  unfold setRank. rewrite <- list_fmap_compose. apply list_fmap_ext.
  intros i s _. cbn. repeat case_decide; done.
Qed.

Lemma updateSession_sessionOk (pid : string) (field : SessionField) (delta : Z)
    (sessions : list PlayerSession) :
  field = K_rebuys \/ (field = K_addOns) ->
  Forall sessionOk sessions ->
  Forall sessionOk (updateSession pid field delta sessions).
Proof.
  intros Hf Hok. unfold updateSession. apply Forall_fmap.
  eapply Forall_impl; [exact Hok |]. intros s (Hb & Hr & Ha & Hrk). cbn.
  case_decide; [done |].
  destruct Hf as [-> | ->]; cbn; repeat case_decide; try done;
    repeat split; cbn; try done; lia.
Qed.

Lemma setRank_sessionOk (pid : string) (r : Z) (sessions : list PlayerSession) :
  1 <= r -> Forall sessionOk sessions -> Forall sessionOk (setRank pid r sessions).
Proof.
  intros Hr Hok. unfold setRank. apply Forall_fmap.
  eapply Forall_impl; [exact Hok |]. intros s (Hb & Hre & Ha & Hrk). cbn.
  repeat case_decide; repeat split; cbn; try done; intros; simplify_eq; lia.
Qed.

Lemma addonAll_sessionOk (sessions : list PlayerSession) :
  Forall sessionOk sessions -> Forall sessionOk (addonAll sessions).
Proof.
  intros Hok. unfold addonAll. apply Forall_fmap.
  eapply Forall_impl; [exact Hok |]. intros s (Hb & Hre & Ha & Hrk). cbn.
  case_decide; repeat split; cbn; try done. by right.
Qed.

Lemma gameClick_roundOk (ids : list string) (st : AppState) (c : GameClick) :
  NoDup ids -> roundOk ids st -> roundOk ids (gameClick st c).
Proof.
  intros Hnd (Htab & Hids & Hok & Huniq). unfold gameClick.
  rewrite decide_True by done.
  assert (Hnd' : NoDup (playerId <$> gameSessions st)) by (by rewrite Hids).
  destruct c as [row | row | row | confirmed | | row place | row].
  - destruct (gameSessions st !! row); [| done]. case_decide; [| done].
    repeat split; cbn; try done.
    + by rewrite updateSession_ids.
    + apply updateSession_sessionOk; auto.
    + eapply ranksUnique_same_ranks; [| exact Huniq].
      symmetry. apply updateSession_ranks. auto.
  - destruct (gameSessions st !! row); [| done]. case_decide; [| done].
    repeat split; cbn; try done.
    + by rewrite updateSession_ids.
    + apply updateSession_sessionOk; auto.
    + eapply ranksUnique_same_ranks; [| exact Huniq].
      symmetry. apply updateSession_ranks. auto.
  - destruct (gameSessions st !! row); [| done]. case_decide; [| done].
    repeat split; cbn; try done.
    + by rewrite updateSession_ids.
    + apply updateSession_sessionOk; auto.
    + eapply ranksUnique_same_ranks; [| exact Huniq].
      symmetry. apply updateSession_ranks. auto.
  - case_decide; [| done]. destruct confirmed; [| done].
    repeat split; cbn; try done.
    + by rewrite addonAll_ids.
    + by apply addonAll_sessionOk.
    + eapply ranksUnique_same_ranks; [| exact Huniq].
      symmetry. apply addonAll_ranks.
  - case_decide; [| done]. unfold advancePhase.
    destruct (gamePhase st); done.
  - destruct (gameSessions st !! row); [| done].
    repeat split; cbn; try done.
    + by rewrite setRank_ids.
    + apply setRank_sessionOk; [by destruct place | done].
    + by apply setRank_ranksUnique.
  - destruct (gameSessions st !! row) as [s |]; [| done].
    destruct (hasRank s); [done |].
    unfold handleElimination. case_decide as Hm; [| done].
    repeat split; cbn; try done.
    + by rewrite setRank_ids.
    + apply setRank_sessionOk; [lia | done].
    + by apply setRank_ranksUnique.
Qed.

Lemma startRound_roundOk (rnd : list nat) (st0 : AppState) :
  roundOk (id <$> activePlayers st0) (startRound rnd st0).
Proof.
  split; [done |]. split; [apply startRound_ids |]. split.
  - rewrite startRound_sessions. apply Forall_fmap, Forall_true.
    intros p. repeat split; cbn; try done. by left.
  - rewrite startRound_sessions. intros i j si sj v Hi Hj Hri.
    rewrite list_lookup_fmap in Hi. destruct (activePlayers st0 !! i); [| done].
    cbn in Hi. injection Hi as <-. done.
Qed.

(** X21: a round stays consistent under the controls of the game tab. From
    a roster with distinct ids, after [startRound] and any sequence of
    clicks on the game tab: the sessions are those of the checked-in
    players of the start, one each; every session has one buy-in, a
    non-negative number of rebuys and 0 or 1 add-on; each rank has at most
    one holder; and every rank is at least 1. *)
Theorem round_stays_consistent (rnd : list nat) (st0 : AppState)
    (clicks : list GameClick) :
  NoDup (id <$> players st0) ->
  let st := foldl gameClick (startRound rnd st0) clicks in
  playerId <$> gameSessions st = id <$> activePlayers st0
  /\ NoDup (playerId <$> gameSessions st)
  /\ Forall (fun s => buyIns s = 1 /\ 0 <= rebuys s
                      /\ (addOns s = 0 \/ addOns s = 1)) (gameSessions st)
  /\ Forall countsOk (gameSessions st)
  /\ ranksUnique (gameSessions st)
  /\ Forall (fun s => forall r, rank s = Some r -> 1 <= r) (gameSessions st).
Proof.
  intros Hnd st.
  assert (Hnd' : NoDup (id <$> activePlayers st0)) by (by apply activePlayers_NoDup).
  assert (Hok : roundOk (id <$> activePlayers st0) st).
  { subst st. generalize (startRound_roundOk rnd st0).
    generalize (startRound rnd st0). induction clicks as [| c clicks IH]; intros s Hs.
    - done.
    - cbn [foldl]. apply IH. by apply gameClick_roundOk. }
  destruct Hok as (_ & Hids & Hok & Huniq).
  split; [done |]. split; [by rewrite Hids |].
  split; [| split; [| split; [done |]]].
  - eapply Forall_impl; [exact Hok |]. intros s (? & ? & ? & ?). done.
  - eapply Forall_impl; [exact Hok |]. intros s (? & ? & ? & ?).
    unfold countsOk. lia.
  - eapply Forall_impl; [exact Hok |]. intros s (? & ? & ? & ?). done.
Qed.

Lemma round_stays_consistent_witness :
  NoDup (id <$> players threePlayers)
  /\ ranksUnique (gameSessions
       (foldl gameClick (startRound [] threePlayers)
          [RebuyPlus 0; Advance; AddOnToggle 1; Eliminate 2;
           RankButton 0 FirstPlace; RankButton 1 FirstPlace])).
Proof.
  assert (Hids : NoDup (id <$> players threePlayers)).
  { apply (bool_decide_unpack _). vm_compute. exact I. }
  split; [exact Hids |].
  exact (proj1 (proj2 (proj2 (proj2 (proj2
           (round_stays_consistent [] threePlayers
              [RebuyPlus 0; Advance; AddOnToggle 1; Eliminate 2;
               RankButton 0 FirstPlace; RankButton 1 FirstPlace] Hids)))))).
Defined.

(** * The ledger and the phases *)

Section Totals.

Context {num : Type} `{Number num}.

Lemma gross_depends_on_counts (config : FinancialConfig num)
    (l1 l2 : list PlayerSession) (g : num) :
  counts <$> l1 = counts <$> l2 ->
  fold_left (addSession config) l1 g = fold_left (addSession config) l2 g.
Proof.
  revert l2 g. induction l1 as [| s1 l1 IH]; intros [| s2 l2] g Heq; try done.
  cbn in Heq. injection Heq as Hb Hr Ha Hrest. cbn [fold_left].
  rewrite (IH l2 _ Hrest). f_equal. unfold addSession. by rewrite Hb, Hr, Ha.
Qed.

Lemma totals_depend_on_counts (config : FinancialConfig num)
    (l1 l2 : list PlayerSession) :
  counts <$> l1 = counts <$> l2 ->
  totals (calculateFinancials l1 config) = totals (calculateFinancials l2 config).
Proof.
  intros Heq. unfold totals, calculateFinancials. cbn.
  by rewrite (gross_depends_on_counts config l1 l2 _ Heq).
Qed.

End Totals.

Lemma counts_columns (l1 l2 : list PlayerSession) :
  buyIns <$> l1 = buyIns <$> l2 -> rebuys <$> l1 = rebuys <$> l2 ->
  addOns <$> l1 = addOns <$> l2 -> counts <$> l1 = counts <$> l2.
Proof.
  revert l2. induction l1 as [| s1 l1 IH]; intros [| s2 l2]; try done.
  cbn. intros [= Hb Hbs] [= Hr Hrs] [= Ha Has]. unfold counts at 1 3.
  rewrite Hb, Hr, Ha. f_equal. by apply IH.
Qed.

Lemma updateSession_columns (pid : string) (field : SessionField) (delta : Z)
    (sessions : list PlayerSession) :
  (field <> K_buyIns ->
   buyIns <$> updateSession pid field delta sessions = buyIns <$> sessions)
  /\ (field <> K_rebuys ->
      rebuys <$> updateSession pid field delta sessions = rebuys <$> sessions)
  /\ (field <> K_addOns ->
      addOns <$> updateSession pid field delta sessions = addOns <$> sessions).
Proof.
  unfold updateSession. repeat split; intros Hf;
    rewrite <- list_fmap_compose; apply list_fmap_ext; intros i s _; cbn;
    (case_decide; [done |]); destruct field; cbn; try done;
    by destruct (rank s).
Qed.

Lemma setRank_counts (pid : string) (r : Z) (sessions : list PlayerSession) :
  counts <$> setRank pid r sessions = counts <$> sessions.
Proof.
  unfold setRank. rewrite <- list_fmap_compose. apply list_fmap_ext.
  intros i s _. cbn. repeat case_decide; done.
Qed.

Lemma counts_split (l1 l2 : list PlayerSession) :
  counts <$> l1 = counts <$> l2 ->
  buyIns <$> l1 = buyIns <$> l2 /\ rebuys <$> l1 = rebuys <$> l2
  /\ addOns <$> l1 = addOns <$> l2.
Proof.
  revert l2. induction l1 as [| s1 l1 IH]; intros [| s2 l2]; try done.
  cbn. intros [= Hb Hr Ha Hrest]. destruct (IH _ Hrest) as (? & ? & ?).
  repeat split; congruence.
Qed.

Lemma addonAll_columns (sessions : list PlayerSession) :
  buyIns <$> addonAll sessions = buyIns <$> sessions
  /\ rebuys <$> addonAll sessions = rebuys <$> sessions.
Proof.
  unfold addonAll. split; rewrite <- list_fmap_compose; apply list_fmap_ext;
    intros i s _; cbn; by case_decide.
Qed.

(** X22: the phases gate the ledger. Whatever is clicked on the game tab,
    the buy-ins do not change; the rebuys change only while the phase is
    [REBUYS_OPEN] and the add-ons only while it is [ADDONS_OPEN]; the phase
    never goes back; and the ids of the sessions, the check-ins and the
    tables are kept. *)
Theorem ledger_gated_by_phase (st : AppState) (c : GameClick) :
  buyIns <$> gameSessions (gameClick st c) = buyIns <$> gameSessions st
  /\ (gamePhase st <> REBUYS_OPEN ->
      rebuys <$> gameSessions (gameClick st c) = rebuys <$> gameSessions st)
  /\ (gamePhase st <> ADDONS_OPEN ->
      addOns <$> gameSessions (gameClick st c) = addOns <$> gameSessions st)
  /\ (phaseIndex (gamePhase st) <= phaseIndex (gamePhase (gameClick st c)))%nat
  /\ playerId <$> gameSessions (gameClick st c) = playerId <$> gameSessions st
  /\ checkedInIds (gameClick st c) = checkedInIds st
  /\ tables (gameClick st c) = tables st.
Proof.
  unfold gameClick. case_decide as Htab; [| done].
  destruct c as [row | row | row | confirmed | | row place | row].
  - destruct (gameSessions st !! row) as [s |]; [| done].
    case_decide as Hph; [| done]. cbn.
    destruct (updateSession_columns (playerId s) K_rebuys (-1) (gameSessions st))
      as (Hb & _ & Ha).
    rewrite updateSession_ids, Hb, Ha by done. repeat split; try done.
  - destruct (gameSessions st !! row) as [s |]; [| done].
    case_decide as Hph; [| done]. cbn.
    destruct (updateSession_columns (playerId s) K_rebuys 1 (gameSessions st))
      as (Hb & _ & Ha).
    rewrite updateSession_ids, Hb, Ha by done. repeat split; try done.
  - destruct (gameSessions st !! row) as [s |]; [| done].
    case_decide as Hph; [| done]. cbn.
    destruct (updateSession_columns (playerId s) K_addOns
                (if decide (addOns s = 1) then -1 else 1) (gameSessions st))
      as (Hb & Hr & _).
    rewrite updateSession_ids, Hb, Hr by done. repeat split; try done.
  - case_decide as Hph; [| done]. destruct confirmed; [| done]. cbn.
    destruct (addonAll_columns (gameSessions st)) as [Hb Hr].
    rewrite addonAll_ids, Hb, Hr. repeat split; try done.
  - case_decide as Hph; [| done]. unfold advancePhase.
    destruct (gamePhase st); cbn; repeat split; try done; lia.
  - destruct (gameSessions st !! row) as [s |]; [| done]. cbn.
    destruct (counts_split _ _ (setRank_counts (playerId s) (podiumRank place)
                                  (gameSessions st))) as (Hb & Hr & Ha).
    rewrite setRank_ids, Hb, Hr, Ha. repeat split; done.
  - destruct (gameSessions st !! row) as [s |]; [| done].
    destruct (hasRank s); [done |].
    unfold handleElimination. case_decide; [| done]. cbn.
    destruct (counts_split _ _ (setRank_counts (playerId s)
                                  (Z.of_nat (lowerRank (omap rank (gameSessions st))
                                               (size (checkedInIds st))))
                                  (gameSessions st))) as (Hb & Hr & Ha).
    rewrite setRank_ids, Hb, Hr, Ha. repeat split; done.
Qed.

Lemma gameClick_frozen (st : AppState) (c : GameClick) :
  gamePhase st = FREEZEOUT ->
  gamePhase (gameClick st c) = FREEZEOUT
  /\ counts <$> gameSessions (gameClick st c) = counts <$> gameSessions st.
Proof.
  intros Hph. unfold gameClick. case_decide as Htab; [| done].
  destruct c as [row | row | row | confirmed | | row place | row].
  - destruct (gameSessions st !! row); [| done]. by rewrite decide_False by congruence.
  - destruct (gameSessions st !! row); [| done]. by rewrite decide_False by congruence.
  - destruct (gameSessions st !! row); [| done]. by rewrite decide_False by congruence.
  - by rewrite decide_False by congruence.
  - rewrite decide_False; [done |]. intros Hne. by apply Hne.
  - destruct (gameSessions st !! row); [| done]. cbn. split; [done |].
    apply setRank_counts.
  - destruct (gameSessions st !! row) as [s |]; [| done].
    destruct (hasRank s); [done |].
    unfold handleElimination. case_decide; [| done]. cbn. split; [done |].
    apply setRank_counts.
Qed.

(** X23: once the cashier is closed, the pot is settled. From a state in
    [FREEZEOUT], no sequence of clicks on the game tab leaves the phase or
    changes a count, so that gross total, admin tax, main event pot, net
    pool, prizes and rounding adjustment are the same whenever they are
    computed, on doubles as on exact numbers. *)
Theorem freezeout_settles_the_pot (st : AppState) (clicks : list GameClick) :
  gamePhase st = FREEZEOUT ->
  let st' := foldl gameClick st clicks in
  gamePhase st' = FREEZEOUT
  /\ counts <$> gameSessions st' = counts <$> gameSessions st
  /\ (forall config : FinancialConfig float,
        totals (calculateFinancials (gameSessions st') config)
        = totals (calculateFinancials (gameSessions st) config))
  /\ (forall config : FinancialConfig Q,
        totals (calculateFinancials (gameSessions st') config)
        = totals (calculateFinancials (gameSessions st) config)).
Proof.
  intros Hph st'.
  assert (Hfrozen : gamePhase st' = FREEZEOUT
                    /\ counts <$> gameSessions st' = counts <$> gameSessions st).
  { subst st'. revert st Hph. induction clicks as [| c clicks IH]; intros st Hph.
    - done.
    - cbn [foldl]. destruct (gameClick_frozen st c Hph) as [Hph' Hc].
      destruct (IH _ Hph') as [Hph'' Hc'']. split; [done |]. congruence. }
  destruct Hfrozen as [Hph' Hc]. split; [done |]. split; [done |].
  split; intros config; by apply totals_depend_on_counts.
Qed.

Lemma freezeout_settles_the_pot_witness :
  gamePhase frozenRound = FREEZEOUT
  /\ counts <$> gameSessions
       (foldl gameClick frozenRound [RebuyPlus 0; AddOnToggle 1; Eliminate 0; Advance])
     = counts <$> gameSessions frozenRound.
Proof.
  assert (Hph : gamePhase frozenRound = FREEZEOUT) by reflexivity.
  split; [exact Hph |].
  exact (proj1 (proj2 (freezeout_settles_the_pot frozenRound
                         [RebuyPlus 0; AddOnToggle 1; Eliminate 0; Advance] Hph))).
Defined.

(** * The roster *)

Lemma rosterIds_NoDup (n : nat) : NoDup (rosterIds n).
Proof.
  unfold rosterIds. apply NoDup_fmap_2; [| apply NoDup_seq].
  intros i j Hij. apply (inj pretty) in Hij. lia.
Qed.

Lemma rosterIds_S (n : nat) : rosterIds (S n) = rosterIds n ++ [pretty (S n)].
Proof. unfold rosterIds. by rewrite seq_S, fmap_app. Qed.

Section Roster.

Context {num : Type} `{Number num}.
Variable trim : string -> string.

Lemma handleAddPlayer_rosterOk (se : Season num) :
  rosterOk (app se) -> rosterOk (app (handleAddPlayer trim se)).
Proof.
  intros [Hids Hchk]. unfold handleAddPlayer. case_decide; [done |].
  split; cbn.
  - rewrite fmap_app, length_app, Hids. cbn [length fmap list_fmap id].
    rewrite Nat.add_1_r. symmetry. apply rosterIds_S.
  - intros x. rewrite fmap_app, elem_of_union, elem_of_app. cbn.
    rewrite elem_of_singleton, list_elem_of_singleton. intros [Hx | ->]; auto.
Qed.

Lemma rosterClick_rosterOk (se : Season num) (c : RosterClick) :
  rosterOk (app se) -> rosterOk (app (rosterClick trim se c)).
Proof.
  intros Hok. unfold rosterClick. case_decide; [| done].
  destruct c as [value | | row | row]; [done | by apply handleAddPlayer_rosterOk | |].
  - destruct (players (app se) !! row) as [p |] eqn:Hp; [| done].
    destruct Hok as [Hids Hchk]. split; [done |]. cbn.
    intros x. case_decide.
    + rewrite elem_of_difference. intros [Hx _]. by apply Hchk.
    + rewrite elem_of_union, elem_of_singleton. intros [Hx | ->]; [by apply Hchk |].
      apply list_elem_of_fmap_2. by eapply list_elem_of_lookup_2.
  - destruct (players (app se) !! row) as [p |] eqn:Hp; [| done].
    destruct Hok as [Hids Hchk].
    assert (Hsame : id <$> (flipDealer (id p) <$> players (app se))
                    = id <$> players (app se)).
    { rewrite <- list_fmap_compose. apply list_fmap_ext. intros i q _. cbn.
      unfold flipDealer. by case_decide. }
    split; cbn.
    + by rewrite Hsame, length_fmap.
    + intros x Hx. rewrite Hsame. by apply Hchk.
Qed.

(** X24: adding a player. A name that trims to nothing changes nothing.
    Otherwise the player is appended to the roster with the id
    [players.length + 1] written in decimal, the name as typed (not
    trimmed) and no dealer flag; the new id is checked in and no check-in
    is lost; the input is cleared; sessions and history are kept. *)
Theorem handleAddPlayer_appends (se : Season num) :
  let se' := handleAddPlayer trim se in
  (trim (newPlayerName se) = "" -> se' = se)
  /\ (trim (newPlayerName se) <> "" ->
      players (app se')
      = players (app se)
        ++ [ {| id := pretty (S (length (players (app se))));
                name := newPlayerName se; isDealer := false |} ]
      /\ pretty (S (length (players (app se)))) ∈ checkedInIds (app se')
      /\ (forall x, x ∈ checkedInIds (app se) -> x ∈ checkedInIds (app se'))
      /\ newPlayerName se' = ""
      /\ gameSessions (app se') = gameSessions (app se)
      /\ roundHistory se' = roundHistory se).
Proof.
  intros se'. subst se'. unfold handleAddPlayer. split.
  - intros Hblank. by rewrite decide_True.
  - intros Hname. rewrite decide_False by done. cbn.
    rewrite Nat.add_1_r. repeat split; try done.
    + apply elem_of_union. right. by apply elem_of_singleton.
    + intros x Hx. apply elem_of_union. by left.
Qed.

End Roster.

(** * The interface as a whole *)

Lemma gameClick_frame (st : AppState) (c : GameClick) :
  activeTab (gameClick st c) = activeTab st
  /\ players (gameClick st c) = players st
  /\ checkedInIds (gameClick st c) = checkedInIds st
  /\ numTables (gameClick st c) = numTables st
  /\ tables (gameClick st c) = tables st.
Proof.
  unfold gameClick. case_decide; [| done].
  destruct c as [row | row | row | confirmed | | row place | row].
  - destruct (gameSessions st !! row); [| done]. by case_decide.
  - destruct (gameSessions st !! row); [| done]. by case_decide.
  - destruct (gameSessions st !! row); [| done]. by case_decide.
  - case_decide; [| done]. by destruct confirmed.
  - case_decide; [| done]. unfold advancePhase. by destruct (gamePhase st).
  - by destruct (gameSessions st !! row).
  - destruct (gameSessions st !! row) as [s |]; [| done].
    destruct (hasRank s); [done |]. unfold handleElimination. by case_decide.
Qed.

Lemma gameClick_sessions (st : AppState) (c : GameClick) :
  NoDup (playerId <$> gameSessions st) ->
  Forall sessionOk (gameSessions st) ->
  ranksUnique (gameSessions st) ->
  playerId <$> gameSessions (gameClick st c) = playerId <$> gameSessions st
  /\ Forall sessionOk (gameSessions (gameClick st c))
  /\ ranksUnique (gameSessions (gameClick st c)).
Proof.
  intros Hnd Hok Huniq.
  destruct (decide (activeTab st = GAME)) as [Htab | Htab].
  - destruct (gameClick_roundOk (playerId <$> gameSessions st) st c Hnd)
      as (_ & Hids & Hok' & Huniq'); done.
  - unfold gameClick. by rewrite decide_False.
Qed.

Section Reachable.

Context {num : Type} `{Number num}.
Variable trim : string -> string.

Lemma initialSeason_ok (today : string) : seasonOk (initialSeason (num := num) today).
Proof.
  unfold seasonOk. cbn. repeat split; try done.
  all: try (by constructor); try (by intros ? ?%elem_of_nil);
    try (by intros ? ?%elem_of_empty); try (by intros ? ? ?%elem_of_nil).
  by intros [|].
Qed.

Lemma click_ok (se : Season num) (c : Click) :
  seasonOk se -> seasonOk (click trim se c).
Proof.
  intros Hse.
  pose proof Hse as (Hroster & Hnd & Hsub & Hok & Huniq & Hseats & Hbal & Hnum
                     & Htab & Hhist & Hres).
  destruct c as [tab | c | value | n | field v | rnd | confirmed | c | confirmed];
    cbn [click].
  - destruct (navDisabled (app se) tab) eqn:Hdis; [done |].
    unfold seasonOk. cbn. repeat split; try done; try apply Hroster; try lia.
    intros [-> | ->]; cbn in Hdis; apply bool_decide_eq_false in Hdis;
      by destruct (gameSessions (app se)).
  - pose proof (rosterClick_rosterOk trim se c Hroster) as Hroster'.
    assert (Hkeep : gameSessions (app (rosterClick trim se c)) = gameSessions (app se)
                    /\ tables (app (rosterClick trim se c)) = tables (app se)
                    /\ numTables (app (rosterClick trim se c)) = numTables (app se)
                    /\ activeTab (app (rosterClick trim se c)) = activeTab (app se)
                    /\ roundHistory (rosterClick trim se c) = roundHistory se
                    /\ forall x, x ∈ id <$> players (app se) ->
                         x ∈ id <$> players (app (rosterClick trim se c))).
    { unfold rosterClick. case_decide; [| done].
      destruct c as [value | | row | row]; [done | | |].
      - unfold handleAddPlayer. case_decide; [done |]. cbn.
        repeat split; try done. intros x Hx. rewrite fmap_app.
        apply elem_of_app. by left.
      - by destruct (players (app se) !! row).
      - destruct (players (app se) !! row) as [p |]; [| done]. cbn.
        repeat split; try done. intros x Hx.
        rewrite <- list_fmap_compose.
        erewrite list_fmap_ext; [exact Hx |].
        intros i q _. cbn. unfold flipDealer. by case_decide. }
    destruct Hkeep as (Hs & Ht & Hn & Ha & Hh & Hp).
    unfold seasonOk. rewrite Hs, Ht, Hn, Ha, Hh.
    split; [exact Hroster' |]. repeat split; try done; try lia.
    + intros x Hx. by apply Hp, Hsub.
    + eapply Forall_impl; [exact Hres |]. intros round Hround.
      eapply Forall_impl; [exact Hround |]. intros res. apply Hp.
  - by case_decide.
  - case_decide; [| done]. unfold seasonOk. cbn.
    repeat split; try done; try apply Hroster; by destruct n.
  - by case_decide.
  - case_decide as Hsetup; [| done].
    unfold seasonOk. cbn [app withApp roundHistory]. unfold clickStart.
    destruct (startDisabled (app se)) eqn:Hdis; [done |].
    apply bool_decide_eq_false in Hdis.
    destruct Hroster as [Hids Hchk].
    assert (Hndp : NoDup (id <$> players (app se))).
    { rewrite Hids. apply rosterIds_NoDup. }
    rewrite startRound_ids. change (gameSessions (startRound rnd (app se)))
      with (newSession <$> activePlayers (app se)).
    change (tables (startRound rnd (app se)))
      with (drawTables rnd (activePlayers (app se)) (numTables (app se))).
    split; [by split |]. split; [by apply activePlayers_NoDup |].
    split.
    { intros x (p & -> & Hp)%list_elem_of_fmap. apply list_elem_of_fmap_2.
      unfold activePlayers in Hp. by apply list_elem_of_filter in Hp as [_ Hp]. }
    split.
    { apply Forall_fmap, Forall_true. intros p. repeat split; cbn; try done. by left. }
    split.
    { intros i j si sj v Hi Hj Hri. rewrite list_lookup_fmap in Hi.
      destruct (activePlayers (app se) !! i); [| done].
      cbn in Hi. injection Hi as <-. done. }
    split; [apply drawTables_seats |]. split; [apply drawTables_even |].
    split; [done |]. split; [| done].
    intros _ Hnil.
    pose proof (activePlayers_count (app se) Hndp Hchk) as Hcount.
    apply fmap_nil_inv in Hnil. rewrite Hnil in Hcount. cbn in Hcount. lia.
  - case_decide; [| done]. case_decide; [| done]. destruct confirmed; [| done].
    unfold seasonOk. cbn. repeat split; try done; try apply Hroster; try lia.
    + constructor.
    + by intros x ?%elem_of_nil.
    + by intros ? ? ?%elem_of_nil.
    + by intros [|].
  - destruct (gameClick_frame (app se) c) as (Ha & Hp & Hc & Hn & Ht).
    destruct (gameClick_sessions (app se) c Hnd Hok Huniq) as (Hids & Hok' & Huniq').
    unfold seasonOk. cbn [app withApp roundHistory].
    rewrite Hids, Ha, Hn, Ht. unfold rosterOk. rewrite Hp, Hc.
    repeat split; try done; try apply Hroster; try lia.
    intros Hg Hnil. apply Htab in Hg. apply Hg.
    apply (f_equal (fmap playerId)) in Hnil. rewrite Hids in Hnil.
    by apply fmap_nil_inv in Hnil.
  - case_decide; [| done]. destruct confirmed; [| done].
    unfold seasonOk. cbn. repeat split; try done; try apply Hroster; try lia.
    + constructor.
    + by intros x ?%elem_of_nil.
    + by intros ? ? ?%elem_of_nil.
    + by intros [|].
    + rewrite fmap_app, length_app, Hhist. cbn.
      rewrite Nat.add_1_r, seq_S, fmap_app. done.
    + apply Forall_app. split; [done |]. apply Forall_singleton. cbn.
      apply Forall_fmap, Forall_forall. intros s Hs. cbn.
      apply Hsub. by apply list_elem_of_fmap_2.
Qed.

(** X25: every state that the interface reaches is consistent. From the
    state in which the application starts, after any sequence of clicks:
    the roster's ids are "1", "2", ..., so no two players share an id;
    every checked-in id is on the roster; no player has two sessions and
    every session is that of a player of the roster; the counts of the
    sessions are in their ranges and each rank has at most one holder; the
    tables seat exactly the players of the sessions, with sizes that differ
    by at most 1; the number of tables is 1, 2 or 3; the game and results
    tabs are shown only while there are sessions; the rounds of the
    history have the ids 1, 2, ... in this order; and every result of the
    history is that of a player of the roster, so that [seasonStats] never
    meets an unknown id. *)
Theorem reachable_states_consistent (today : string) (clicks : list Click) :
  let se := foldl (click trim) (initialSeason today) clicks in
  let st := app se in
  id <$> players st = rosterIds (length (players st))
  /\ NoDup (id <$> players st)
  /\ (forall x, x ∈ checkedInIds st -> x ∈ id <$> players st)
  /\ NoDup (playerId <$> gameSessions st)
  /\ (forall x, x ∈ playerId <$> gameSessions st -> x ∈ id <$> players st)
  /\ Forall (fun s => buyIns s = 1 /\ 0 <= rebuys s /\ (addOns s = 0 \/ addOns s = 1))
       (gameSessions st)
  /\ Forall countsOk (gameSessions st)
  /\ ranksUnique (gameSessions st)
  /\ Forall (fun s => forall r, rank s = Some r -> 1 <= r) (gameSessions st)
  /\ seats (tables st) ≡ₚ playerId <$> gameSessions st
  /\ (forall t1 t2, t1 ∈ tables st -> t2 ∈ tables st ->
        Z.abs (table_size t1 - table_size t2) <= 1)
  /\ 1 <= numTables st <= 3
  /\ (activeTab st = GAME \/ activeTab st = FINANCE -> gameSessions st <> [])
  /\ round_id <$> roundHistory se
     = (fun i : nat => Z.of_nat i + 1) <$> seq 0 (length (roundHistory se))
  /\ (forall round res, round ∈ roundHistory se -> res ∈ playerResults round ->
        result_playerId res ∈ id <$> players st).
Proof.
  intros se st.
  assert (Hse : seasonOk se).
  { subst se. pose proof (initialSeason_ok today) as Hinit. revert Hinit.
    generalize (initialSeason (num := num) today).
    induction clicks as [| c clicks IH]; intros se Hse; [done |].
    cbn [foldl]. apply IH. by apply click_ok. }
  destruct Hse as ([Hids Hchk] & Hnd & Hsub & Hok & Huniq & Hseats & Hbal & Hnum
                   & Htab & Hhist & Hres).
  fold st in Hids, Hchk, Hnd, Hsub, Hok, Huniq, Hseats, Hbal, Hnum, Htab, Hres.
  split; [done |]. split; [rewrite Hids; apply rosterIds_NoDup |].
  split; [done |]. split; [done |]. split; [done |].
  split; [eapply Forall_impl; [exact Hok |]; by intros s (? & ? & ? & ?) |].
  split.
  { eapply Forall_impl; [exact Hok |]. intros s (Hb & Hr & Ha & _).
    unfold countsOk. destruct Ha; lia. }
  split; [done |].
  split; [eapply Forall_impl; [exact Hok |]; by intros s (? & ? & ? & ?) |].
  split; [done |]. split.
  { intros t1 t2 H1 H2.
    pose proof (Hbal t1 t2 H1 H2). pose proof (Hbal t2 t1 H2 H1). lia. }
  split; [done |]. split; [done |]. split; [done |].
  intros round res Hround Hin.
  rewrite Forall_forall in Hres. specialize (Hres round Hround).
  rewrite Forall_forall in Hres. by apply Hres.
Qed.

End Reachable.

(** * Saving a round *)

Lemma find_own {A B : Type} (key : B -> string) (k : A -> string) (f : A -> B)
    (l : list A) (a : A) :
  (forall x, key (f x) = k x) ->
  NoDup (k <$> l) -> a ∈ l ->
  find (fun b => bool_decide (key b = k a)) (f <$> l) = Some (f a).
Proof.
  intros Hkey. induction l as [| x l IH]; intros Hnd Ha; [by apply elem_of_nil in Ha |].
  rewrite fmap_cons in Hnd. apply NoDup_cons in Hnd as [Hx Hnd].
  cbn. rewrite Hkey. apply elem_of_cons in Ha as [-> | Ha].
  - by rewrite bool_decide_eq_true_2.
  - rewrite bool_decide_eq_false_2; [by apply IH |].
    intros Heq. apply Hx. rewrite Heq. by apply list_elem_of_fmap_2.
Qed.

Section Save.

Context {num : Type} `{Number num}.

(** X26: saving a round. Declined, it changes nothing. Confirmed, it appends
    one entry to the history and keeps the earlier ones: the entry has the
    id [roundHistory.length + 1], the date of the round, the gross total of
    the settlement, and one result for each session, in order, with the
    id and the rank of the session and the points of [calculatePoints] for
    [checkedInIds.size] players; when no player has two sessions, the net
    balances recorded are those of the settlement. The round is cleared,
    the ranking tab is shown, and roster, check-ins and costs are kept. *)
Theorem saveAndFinishRound_records (confirmed : bool) (se : Season num) :
  let se' := saveAndFinishRound confirmed se in
  let sessions := gameSessions (app se) in
  let financials := calculateFinancials sessions (config se) in
  (confirmed = false -> se' = se)
  /\ (confirmed = true ->
      exists entry,
        roundHistory se' = roundHistory se ++ [entry]
        /\ round_id entry = Z.of_nat (length (roundHistory se)) + 1
        /\ date entry = roundDate se
        /\ totalPot entry = grossTotal financials
        /\ result_playerId <$> playerResults entry = playerId <$> sessions
        /\ result_rank <$> playerResults entry = rank <$> sessions
        /\ points <$> playerResults entry
           = pointsOf (size (checkedInIds (app se))) <$> sessions
        /\ (NoDup (playerId <$> sessions) ->
            result_netBalance <$> playerResults entry
            = netBalance <$> playerBalances financials)
        /\ gameSessions (app se') = [] /\ tables (app se') = []
        /\ gamePhase (app se') = REBUYS_OPEN /\ activeTab (app se') = RANKING
        /\ players (app se') = players (app se)
        /\ checkedInIds (app se') = checkedInIds (app se)
        /\ config se' = config se).
Proof.
  intros se' sessions financials. split; [by intros -> |].
  intros ->. subst se'. cbn. eexists. split; [reflexivity |]. cbn.
  fold sessions. fold financials.
  repeat split; try done.
  - rewrite <- list_fmap_compose. by apply list_fmap_ext.
  - rewrite <- list_fmap_compose. by apply list_fmap_ext.
  - rewrite <- list_fmap_compose. by apply list_fmap_ext.
  - intros Hnd. rewrite <- list_fmap_compose.
    subst financials. unfold calculateFinancials. cbn [playerBalances].
    change (map ?f ?l) with (f <$> l).
    rewrite <- list_fmap_compose.
    apply list_fmap_ext. intros i s Hs.
    cbn [compose resultOf result_netBalance playerBalances].
    rewrite (find_own pb_playerId playerId); [done | done | done |].
    by eapply list_elem_of_lookup_2.
Qed.

End Save.

Section SavedPoints.

Local Open Scope Q_scope.

(** X27: the points that a saved round records, over exact numbers. The
    result of a session is found in the new entry at the position of the
    session; a session without a rank scores 0, and a session of rank
    [r >= 1] scores [(n + 1) - r + n / r], where [n] is the number of
    checked-in players at the time of saving. *)
Theorem saved_points (se : Season Q) (i : nat) (s : PlayerSession) :
  gameSessions (app se) !! i = Some s ->
  let n := inject_Z (Z.of_nat (size (checkedInIds (app se)))) in
  exists res,
    (roundHistory (saveAndFinishRound true se) !! length (roundHistory se)
     ≫= fun entry => playerResults entry !! i) = Some res
    /\ result_playerId res = playerId s
    /\ result_rank res = rank s
    /\ (rank s = None -> points res == 0)
    /\ (forall r, rank s = Some r -> (1 <= r)%Z ->
          points res == (n + 1) - inject_Z r + n / inject_Z r).
Proof.
  intros Hs n. cbn.
  rewrite lookup_app_r, Nat.sub_diag by done. cbn.
  rewrite list_lookup_fmap, Hs. cbn.
  eexists. split; [reflexivity |]. cbn. split; [done |]. split; [done |].
  unfold pointsOf. split.
  - intros ->. reflexivity.
  - intros r -> Hr. rewrite decide_False by lia.
    unfold of_int. change (Exact.lit ?z 0) with (inject_Z z).
    rewrite calculatePoints_Q; [reflexivity |].
    change (inject_Z 0 < inject_Z r). rewrite <- Zlt_Qlt. lia.
Qed.

End SavedPoints.

Lemma saved_points_witness :
  gameSessions (app finishedRound) !! 0%nat
  = Some {| playerId := "1"; buyIns := 1; rebuys := 0; addOns := 0; rank := Some 1 |}
  /\ exists res,
       (roundHistory (saveAndFinishRound true finishedRound) !! 0%nat
        ≫= fun entry => playerResults entry !! 0%nat) = Some res
       /\ (points res == 8)%Q.
Proof.
  assert (Hs : gameSessions (app finishedRound) !! 0%nat
               = Some {| playerId := "1"; buyIns := 1; rebuys := 0; addOns := 0;
                         rank := Some 1 |}) by reflexivity.
  split; [exact Hs |].
  destruct (saved_points finishedRound 0 _ Hs) as (res & Hres & _ & _ & _ & Hpts).
  exists res. split; [exact Hres |].
  rewrite (Hpts 1 eq_refl ltac:(lia)). by vm_compute.
Defined.

(** * Season ranking *)

Section SeasonStatsFacts.

Context {num : Type} `{Number num}.

Lemma sortInsert_perm {T : Type} (compareFn : T -> T -> num) (x : T) (l : list T) :
  sortInsert compareFn x l ≡ₚ x :: l.
Proof.
  induction l as [| y l IH]; [done |]. cbn.
  destruct (positive _); [| done]. rewrite IH. apply Permutation_swap.
Qed.









End SeasonStatsFacts.


(** A roster with the id ["__proto__"]: the assignment replaces the
    prototype of [stats], and the ranking has a line for the two others
    only. *)
Example proto_player_has_no_line :
  stat_name <$> seasonStats (num := Q) protoRoster [] = ["Ana"; "Caio"].
Proof. by vm_compute. Qed.

Section RankingOrder.

Local Open Scope Q_scope.

Lemma positive_Q (v : Q) : positive v = true <-> 0 < v.
Proof.
  unfold positive, of_int. cbn. change (Exact.lit 0 0) with 0.
  rewrite andb_true_iff, negb_true_iff, Qle_bool_iff.
  split.
  - intros [Hle Hne]. apply Qle_lteq in Hle as [Hlt | Heq]; [done |].
    apply Qeq_bool_iff in Heq. congruence.
  - intros Hlt. split; [lra |]. apply not_true_is_false. intros Heq.
    apply Qeq_bool_iff in Heq. lra.
Qed.

Lemma sortInsert_sorted (x : Stat Q) (l : list (Stat Q)) :
  StronglySorted (fun a b => stat_points b <= stat_points a) l ->
  StronglySorted (fun a b => stat_points b <= stat_points a)
    (sortInsert (fun a b => num_sub (stat_points b) (stat_points a)) x l).
Proof.
  induction 1 as [| y l Hsorted IH Hy].
  - cbn. by repeat constructor.
  - cbn [sortInsert]. destruct (positive _) eqn:Hpos.
    + apply positive_Q in Hpos. cbn in Hpos. constructor; [done |].
      rewrite sortInsert_perm. constructor; [lra | done].
    + assert (Hle : stat_points y <= stat_points x).
      { destruct (Qlt_le_dec (stat_points x) (stat_points y)) as [Hlt | Hle]; [| done].
        assert (Hp : positive (num_sub (stat_points y) (stat_points x)) = true).
        { apply positive_Q. cbn. lra. }
        congruence. }
      constructor; [by constructor |]. constructor; [done |].
      eapply Forall_impl; [exact Hy |]. cbn. intros z Hz. lra.
Qed.

(** X29: the season ranking is in descending order of points, over exact
    numbers: no line has more points than a line above it. *)
Theorem seasonStats_sorted (players : list Player) (roundHistory : list (HistoricalRound Q)) :
  StronglySorted (fun a b => stat_points b <= stat_points a)
    (seasonStats players roundHistory).
Proof.
  unfold seasonStats. generalize (Object_values
    (foldl (fun stats round => foldl recordResult stats (playerResults round))
       (foldl (fun stats p => setProperty (id p) (emptyStat p) stats) [] players)
       roundHistory)).
  intros l. induction l as [| x l IH]; [constructor |].
  cbn. by apply sortInsert_sorted.
Qed.

End RankingOrder.

(** The ranking after the scenario of the specification is saved: the
    winner leads with 8 points and a profit of 20. *)
Example ranking_after_one_round :
  (fun stat => (stat_name stat, rounds stat, wins stat))
    <$> seasonStats (players (app finishedRound))
          (roundHistory (saveAndFinishRound true finishedRound))
  = [("Ana", 1, 1); ("Bia", 1, 0); ("Caio", 1, 0); ("Duda", 1, 0)]
  /\ (exists leader,
        head (seasonStats (players (app finishedRound))
                (roundHistory (saveAndFinishRound true finishedRound))) = Some leader
        /\ (stat_points leader == 8)%Q /\ (stat_netBalance leader == 20)%Q).
Proof.
  split; [by vm_compute |].
  eexists. split; [by vm_compute |]. split; by vm_compute.
Qed.
